(** * Binary radix sort (bin_radix_sort.cpp): model and verification

    The C++ file defines two in-place most-significant-bit-first binary
    radix sorts over [std::vector<T>], [T] an unsigned integer type: a
    recursive one working on [std::span] views and an iterative one that
    keeps its pending ranges in an array used as a stack.  It also has a
    comparison helper, [equal_vectors], used by the benchmark.

    Conventions of the embedding:
    - a [std::vector<T>] is a [list Z]; an element of type [T] is a [Z] in
      [0, 2^bits T);
    - [int] values are [Z]; the narrowing conversions from [size_t] to
      [int] that the source performs are written out with [to_int]; the
      cursors and tasks of the sorts stay between [-1] and the size of the
      vector and are computed exactly; the counter of [equal_vectors] runs
      up to the size of its first argument, and its increment beyond
      [INT_MAX] is a signed overflow, which is undefined behaviour;
    - an unchecked [operator[]] outside the bounds of its container is
      undefined behaviour: every access returns an [option], [None] standing
      for undefined behaviour, and the functions propagate it. *)

From stdpp Require Import base numbers list sorting.
From Equations Require Import Equations.
Local Open Scope Z_scope.

(** ** Machine integers *)

Definition INT_MAX : Z := 2147483647.

(** Conversion of a [size_t] value to [int] (modular since C++20). *)
Definition to_int (x : Z) : Z := (x + 2 ^ 31) `mod` 2 ^ 32 - 2 ^ 31.

(** The element types the benchmark instantiates the templates with. *)
Inductive uint_t : Set := uint8_t | uint16_t | uint32_t | uint64_t.

Definition sizeof (T : uint_t) : Z :=
  match T with uint8_t => 1 | uint16_t => 2 | uint32_t => 4 | uint64_t => 8 end.

(** Bit width of [T], the [sizeof(T) * 8] of the source. *)
Definition bits (T : uint_t) : Z := sizeof T * 8.

(** [x] is a value of type [T]. *)
Definition is_uint (T : uint_t) (x : Z) : Prop := 0 <= x < 2 ^ bits T.

(** ** Vectors with unchecked indexing *)

Definition vsize {A} (v : list A) : Z := Z.of_nat (length v).

(** [v[i]] as an rvalue. *)
Definition vget {A} (v : list A) (i : Z) : option A :=
  if decide (0 <= i) then v !! Z.to_nat i else None.

(** [v[i] = x]. *)
Definition vset {A} (v : list A) (i : Z) (x : A) : option (list A) :=
  if decide (0 <= i < vsize v) then Some (<[Z.to_nat i := x]> v) else None.

(** [tmp = v[i]; v[i] = v[j]; v[j] = tmp], which is also what
    [std::swap(v[i], v[j])] does. *)
Definition vswap (v : list Z) (i j : Z) : option (list Z) :=
  tmp ← vget v i;
  y ← vget v j;
  v1 ← vset v i y;
  vset v1 j tmp.

(** [(x >> bit) & 1], for the bit indices [0 <= bit < bits T] that the
    sorts use. *)
Definition nth_bit (x bit : Z) : Z := Z.land (Z.shiftr x bit) 1.

(** ** The two-pointer partition loop

    [while (left <= right) { ... }] of both variants.  The recursive variant
    indexes a span, whose element [i] is element [base + i] of the vector;
    the iterative variant indexes the vector itself ([base = 0]).  [l] and
    [r] are the cursors [left] and [right]; the result is the vector and
    the value of [left] when the loop exits.  The loop runs [r - l + 1]
    more times, which is the measure of the recursion. *)

Equations? partition_loop (bit base : Z) (v : list Z) (l r : Z)
  : option (list Z * Z) by wf (Z.to_nat (r - l + 1)) lt :=
  partition_loop bit base v l r with decide (l <= r) := {
    | right _ => Some (v, l)
    | left _ =>
        match vget v (base + l) with
        | None => None
        | Some x =>
            if decide (nth_bit x bit = 0)
            then partition_loop bit base v (l + 1) r
            else match vswap v (base + l) (base + r) with
                 | None => None
                 | Some v' => partition_loop bit base v' l (r - 1)
                 end
        end }.
Proof. all: lia. Qed.

(** ** Recursive variant *)

(** A [std::span<T>] into the vector: offset of its first element and
    number of elements. *)
Record span : Set := Span { sp_off : Z; sp_size : Z }.

(** [s.subspan(offset, count)] and [s.subspan(offset)]. *)
Definition subspan (s : span) (offset count : Z) : span :=
  Span (sp_off s + offset) count.
Definition subspan_from (s : span) (offset : Z) : span :=
  Span (sp_off s + offset) (sp_size s - offset).

(** The lambda [bin_radix_sort_rec_inm]; [v] is the storage the span
    points into. *)
Equations? bin_radix_sort_rec_inm (v : list Z) (vview : span) (bit : Z)
  : option (list Z) by wf (Z.to_nat (bit + 1)) lt :=
  bin_radix_sort_rec_inm v vview bit
    with decide (sp_size vview <= 1 ∨ bit < 0) := {
    | left _ => Some v
    | right _ =>
        match partition_loop bit (sp_off vview) v 0
                (to_int (sp_size vview - 1)) with
        | None => None
        | Some (v1, lft) =>
            match bin_radix_sort_rec_inm v1 (subspan vview 0 lft) (bit - 1) with
            | None => None
            | Some v2 =>
                bin_radix_sort_rec_inm v2 (subspan_from vview lft) (bit - 1)
            end
        end }.
Proof. all: lia. Qed.

Definition bin_radix_sort_rec (T : uint_t) (v : list Z) : option (list Z) :=
  bin_radix_sort_rec_inm v (Span 0 (vsize v)) (to_int (sizeof T * 8 - 1)).

(** ** Iterative variant *)

(** [std::tuple<int, int, int>]: start, size, bit. *)
Record task : Set := Task { t_start : Z; t_size : Z; t_bit : Z }.

(** The variables of [bin_radix_sort_it] that live across iterations of
    the outer loop. *)
Record it_state : Set :=
  ItState { it_v : list Z; it_stack : list task; it_top : Z }.

(** One run of the body of [while (top >= 0)]. *)
Definition it_body (s : it_state) : option it_state :=
  '(Task start size bit) ← vget (it_stack s) (it_top s);
  let top := it_top s - 1 in
  if decide (size <= 1 ∨ bit < 0) then
    Some (ItState (it_v s) (it_stack s) top)
  else
    '(v', lft) ← partition_loop bit 0 (it_v s) start (start + size - 1);
    stack1 ← vset (it_stack s) (top + 1) (Task start (lft - start) (bit - 1));
    stack2 ← vset stack1 (top + 2) (Task lft (size - (lft - start)) (bit - 1));
    Some (ItState v' stack2 (top + 2)).

(** Result of running the outer loop for a bounded number of iterations. *)
Inductive outcome : Set :=
| Returned (v : list Z)   (* the loop was left with [top < 0] *)
| Undefined               (* an access was out of bounds *)
| Running (s : it_state). (* the bound was reached with [top >= 0] *)

Fixpoint it_loop (n : nat) (s : it_state) : outcome :=
  if decide (it_top s >= 0) then
    match n with
    | O => Running s
    | S n' =>
        match it_body s with
        | None => Undefined
        | Some s' => it_loop n' s'
        end
    end
  else Returned (it_v s).

(** The state after [stack[++top] = {0, v.size(), sizeof(T) * 8 - 1}];
    [std::vector<...> stack(v.size())] holds [v.size()] zeroed tuples. *)
Definition it_init (T : uint_t) (v : list Z) : option it_state :=
  let stack := replicate (length v) (Task 0 0 0) in
  let top := -1 in
  stack' ← vset stack (top + 1)
             (Task 0 (to_int (vsize v)) (to_int (sizeof T * 8 - 1)));
  Some (ItState v stack' (top + 1)).

(** Number of iterations after which the outer loop has always ended. *)
Definition it_bound (T : uint_t) (v : list Z) : nat :=
  2 * Z.to_nat (bits T) * length v + 2.

Definition bin_radix_sort_it (T : uint_t) (v : list Z) : outcome :=
  match it_init T v with
  | None => Undefined
  | Some s => it_loop (it_bound T v) s
  end.

(** Whether the iteration that starts in [s] is a partition step (1) or
    drops the task it pops (0), and the number of partition steps among
    the first [n] iterations from [s].  The partition loop runs before the
    two tasks are pushed: an iteration whose push is out of bounds has made
    its partition step, and is counted. *)
Definition it_partitions_here (s : it_state) : nat :=
  match vget (it_stack s) (it_top s) with
  | Some (Task _ size bit) => if decide (size <= 1 ∨ bit < 0) then 0 else 1
  | None => 0
  end.

Fixpoint it_partitions (n : nat) (s : it_state) : nat :=
  match n with
  | O => 0
  | S n' =>
      if decide (it_top s >= 0) then
        (it_partitions_here s +
         match it_body s with
         | None => 0
         | Some s' => it_partitions n' s'
         end)%nat
      else 0
  end.

(** ** The comparison helper of the benchmark *)

(** The loop [for (int i = 0; i < v1.size(); ++i)] from index [i] on, with
    [n] iterations left; the message printed on a mismatch is not
    modelled.  The counter is an [int]: [++i] at [i = INT_MAX] overflows,
    which is undefined behaviour, also when it ends the last iteration. *)
Fixpoint equal_vectors_from (n : nat) (i : Z) (v1 v2 : list Z) : option bool :=
  match n with
  | O => Some true
  | S n' =>
      x ← vget v1 i;
      y ← vget v2 i;
      if decide (x ≠ y) then Some false
      else if decide (i + 1 <= INT_MAX)
           then equal_vectors_from n' (i + 1) v1 v2
           else None
  end.

Definition equal_vectors (v1 v2 : list Z) : option bool :=
  equal_vectors_from (length v1) 0 v1 v2.

(** ** A vector beyond the range of [int]

    [2^31 + 1] values of any of the element types, the first one 1 and the
    others 0: one element more than the cursor [right = size - 1] of the
    recursive variant can index. *)
Definition oversize : list Z := 1 :: replicate (Z.to_nat 2147483648) 0.

(** ** Calls and states of a run

    The calls of the lambda that [bin_radix_sort_rec T v] makes, each with
    its nesting depth below the first call, the storage when the call is
    entered, its span and its bit. *)
Inductive rec_call (T : uint_t) (v : list Z)
  : nat -> list Z -> span -> Z -> Prop :=
| rec_call_first :
    rec_call T v 0 v (Span 0 (vsize v)) (to_int (sizeof T * 8 - 1))
| rec_call_low d v0 vview bit v1 lft :
    rec_call T v d v0 vview bit ->
    ~ (sp_size vview <= 1 \/ bit < 0) ->
    partition_loop bit (sp_off vview) v0 0 (to_int (sp_size vview - 1))
      = Some (v1, lft) ->
    rec_call T v (S d) v1 (subspan vview 0 lft) (bit - 1)
| rec_call_high d v0 vview bit v1 lft v2 :
    rec_call T v d v0 vview bit ->
    ~ (sp_size vview <= 1 \/ bit < 0) ->
    partition_loop bit (sp_off vview) v0 0 (to_int (sp_size vview - 1))
      = Some (v1, lft) ->
    bin_radix_sort_rec_inm v1 (subspan vview 0 lft) (bit - 1) = Some v2 ->
    rec_call T v (S d) v2 (subspan_from vview lft) (bit - 1).

(** The states in which [bin_radix_sort_it T v] tests [top >= 0]. *)
Inductive it_reach (T : uint_t) (v : list Z) : it_state -> Prop :=
| it_reach_init s : it_init T v = Some s -> it_reach T v s
| it_reach_body s s' :
    it_reach T v s -> it_top s >= 0 -> it_body s = Some s' ->
    it_reach T v s'.

(** The trusted reference sort that both variants are compared with
    ([std::sort] in the benchmark): a sort into ascending order. *)
Definition reference_sort (v : list Z) : list Z := merge_sort Z.le v.

(** ** The benchmark

    [std::generate(v1.begin(), v1.end(), rand)]: each [int] returned by
    [rand] is converted to [T]. *)
Definition to_T (T : uint_t) (r : Z) : Z := r `mod` 2 ^ bits T.

Definition generate (T : uint_t) (rs : list Z) : list Z := to_T T <$> rs.

(** The vector that [bin_radix_sort_it] leaves, when it returns. *)
Definition returned (o : outcome) : option (list Z) :=
  match o with
  | Returned v => Some v
  | Undefined | Running _ => None
  end.

(** One repetition of the loop of [benchmark<T>], for the values [rs] that
    [rand] returns: [v1] is generated and copied to [v2] and [v3], the three
    are sorted, by [std::sort] and by the two variants, and [v2] and [v3]
    are compared with [v1].  The result is what the two calls of
    [equal_vectors] return, each printing its message when it returns
    false; the clock and the output are not modelled. *)
Definition benchmark_rep (T : uint_t) (rs : list Z) : option (bool * bool) :=
  let v1 := generate T rs in
  let v2 := v1 in
  let v3 := v1 in
  let v1 := reference_sort v1 in
  v2 ← bin_radix_sort_rec T v2;
  v3 ← returned (bin_radix_sort_it T v3);
  ok2 ← equal_vectors v1 v2;
  ok3 ← equal_vectors v1 v3;
  Some (ok2, ok3).

(** * Specification functions and invariants

    Functions on the values of a range that say what the loops do, and the
    invariants of the iterative variant.  None of them is part of the
    source; the lemmas below relate them to the model. *)

(** The values whose bit [bit] is 0, and the others. *)
Definition bit_clear (bit x : Z) : Prop := nth_bit x bit = 0.
Definition bit_set (bit x : Z) : Prop := nth_bit x bit <> 0.

(** What the loop does to the range between its cursors, as a function of
    the values in the range: the values whose bit is 0, then the others.
    [n] is the length of the range. *)
Fixpoint partition_seg (n : nat) (bit : Z) (s : list Z) : list Z * list Z :=
  match n, s with
  | S n', x :: s' =>
      if decide (nth_bit x bit = 0) then
        let '(lo, hi) := partition_seg n' bit s' in (x :: lo, hi)
      else
        match reverse s' with
        | [] => ([], [x])
        | y :: rs =>
            let '(lo, hi) := partition_seg n' bit (y :: reverse rs) in
            (lo, hi ++ [x])
        end
  | _, _ => ([], [])
  end.

(** What a call of the lambda does to the range of its span, as a function
    of the values in the range; [k] is the number of bits left to look at,
    [bit + 1]. *)
Fixpoint msd_sort (k : nat) (s : list Z) : list Z :=
  match k with
  | O => s
  | S k' =>
      if decide (vsize s <= 1) then s
      else
        let '(lo, hi) := partition_seg (length s) (Z.of_nat k') s in
        msd_sort k' lo ++ msd_sort k' hi
  end.

(** The tasks on the stack, bottom first: entries [0 .. top] of the array. *)
Definition pending (s : it_state) : list task :=
  take (Z.to_nat (it_top s + 1)) (it_stack s).

(** The body of the outer loop on a stack that cannot overflow: [ts] are
    the tasks below the popped task [t]. *)
Definition it_step (v : list Z) (ts : list task) (t : task)
  : option (list Z * list task) :=
  let '(Task start size bit) := t in
  if decide (size <= 1 \/ bit < 0) then Some (v, ts)
  else
    '(v', lft) ← partition_loop bit 0 v start (start + size - 1);
    Some (v', ts ++ [Task start (lft - start) (bit - 1);
                     Task lft (size - (lft - start)) (bit - 1)]).

(** Bound on the number of iterations a task causes. *)
Definition task_weight (t : task) : nat :=
  S (2 * Z.to_nat (t_bit t + 1) * Z.to_nat (t_size t)).

Definition weight (ts : list task) : nat := sum_list_with task_weight ts.

(** Bound on the number of partition steps a task causes. *)
Definition task_splits (t : task) : nat :=
  Z.to_nat (t_bit t + 1) * (Z.to_nat (t_size t) - 1).

Definition splits (ts : list task) : nat := sum_list_with task_splits ts.

(** A pending task at index [i] of the stack, for a vector of [n] elements
    of [W] bits: its range lies in the vector and its bit is at most
    [W - 1 - i]. *)
Definition task_ok (n W : Z) (i : nat) (t : task) : Prop :=
  0 <= t_start t /\ t_start t + t_size t <= n /\
  -1 <= t_bit t /\ t_bit t + Z.of_nat i <= W - 1.

Definition stack_ok (n W : Z) (ts : list task) : Prop :=
  forall i t, ts !! i = Some t -> task_ok n W i t.

(** What is left to do: the recursive lambda on each pending task, topmost
    first. *)
Fixpoint drain (ts : list task) (v : list Z) : option (list Z) :=
  match ts with
  | [] => Some v
  | t :: ts' =>
      v' ← bin_radix_sort_rec_inm v (Span (t_start t) (t_size t)) (t_bit t);
      drain ts' v'
  end.

(** The invariant of the outer loop, for the vector [v0] given to the
    sort; its last part relates the two variants, for the sizes that the
    [int] cursors of the recursive variant represent. *)
Definition it_inv (T : uint_t) (v0 : list Z) (s : it_state) : Prop :=
  vsize (it_v s) = vsize v0 /\
  vsize (it_stack s) = vsize v0 /\
  it_top s + 1 = vsize (pending s) /\
  stack_ok (vsize v0) (bits T) (pending s) /\
  it_v s ≡ₚ v0 /\
  (vsize v0 <= INT_MAX ->
   drain (reverse (pending s)) (it_v s) = bin_radix_sort_rec T v0).

(** * Properties *)

(** ** Vectors *)

Section vectors.
Context {A : Type}.
Implicit Types (a c : list A) (x y : A).

Lemma vsize_nonneg a : 0 <= vsize a.
Proof. unfold vsize. lia. Qed.

Lemma vsize_app a c : vsize (a ++ c) = vsize a + vsize c.
Proof. unfold vsize. rewrite length_app. lia. Qed.

Lemma vsize_cons x a : vsize (x :: a) = 1 + vsize a.
Proof. unfold vsize. simpl. lia. Qed.

Lemma vget_Some a i x :
  vget a i = Some x <-> 0 <= i /\ a !! Z.to_nat i = Some x.
Proof. unfold vget. case_decide; [tauto|]. split; [done|tauto]. Qed.

Lemma vget_lt a i x : vget a i = Some x -> 0 <= i < vsize a.
Proof.
  intros [? H%lookup_lt_Some]%vget_Some. unfold vsize. lia.
Qed.

Lemma vget_middle a x c i : i = vsize a -> vget (a ++ x :: c) i = Some x.
Proof.
  intros ->. apply vget_Some. split; [apply vsize_nonneg|].
  apply list_lookup_middle. unfold vsize. lia.
Qed.

Lemma vset_Some a i x a' :
  vset a i x = Some a' <-> 0 <= i < vsize a /\ a' = <[Z.to_nat i := x]> a.
Proof.
  unfold vset. case_decide; [|split; [done|tauto]].
  split; [intros [= <-]; done|intros [_ ->]; done].
Qed.

Lemma vset_length a i x a' : vset a i x = Some a' -> length a' = length a.
Proof. intros [_ ->]%vset_Some. apply length_insert. Qed.

Lemma vset_middle a x y c i :
  i = vsize a -> vset (a ++ x :: c) i y = Some (a ++ y :: c).
Proof.
  intros ->. apply vset_Some. split.
  - rewrite vsize_app, vsize_cons.
    pose proof (vsize_nonneg a). pose proof (vsize_nonneg c). lia.
  - unfold vsize. rewrite Nat2Z.id.
    replace (length a) with (length a + 0)%nat at 1 by lia.
    by rewrite insert_app_r.
Qed.
End vectors.

Lemma vswap_same a x c i :
  i = vsize a -> vswap (a ++ x :: c) i i = Some (a ++ x :: c).
Proof.
  intros Hi. unfold vswap.
  rewrite (vget_middle a x c i Hi). simpl.
  rewrite (vset_middle a x x c i Hi). simpl.
  by apply vset_middle.
Qed.

Lemma vswap_ends a x m y c i j :
  i = vsize a -> j = vsize a + 1 + vsize m ->
  vswap (a ++ x :: m ++ y :: c) i j = Some (a ++ y :: m ++ x :: c).
Proof.
  intros Hi Hj. unfold vswap.
  assert (Hj' : j = vsize (a ++ x :: m)).
  { rewrite vsize_app, vsize_cons. lia. }
  assert (Hj'' : j = vsize (a ++ y :: m)).
  { rewrite vsize_app, vsize_cons. lia. }
  rewrite (vget_middle a x _ i Hi). simpl.
  replace (a ++ x :: m ++ y :: c) with ((a ++ x :: m) ++ y :: c)
    by (by rewrite <- (assoc_L (++))).
  rewrite (vget_middle _ y c j Hj'). simpl.
  rewrite <- (assoc_L (++)). simpl.
  rewrite (vset_middle a x y _ i Hi). simpl.
  replace (a ++ y :: m ++ y :: c) with ((a ++ y :: m) ++ y :: c)
    by (by rewrite <- (assoc_L (++))).
  rewrite (vset_middle _ y x c j Hj'').
  by rewrite <- (assoc_L (++)).
Qed.

Lemma vswap_length v i j v' : vswap v i j = Some v' -> length v' = length v.
Proof.
  unfold vswap. intros H.
  destruct (vget v i) as [x|]; [simpl in H|done].
  destruct (vget v j) as [y|]; [simpl in H|done].
  destruct (vset v i y) as [v1|] eqn:H1; [simpl in H|done].
  apply vset_length in H, H1. congruence.
Qed.

(** ** The partition loop *)

Lemma partition_loop_eq bit base v l r :
  partition_loop bit base v l r =
    if decide (l <= r) then
      x ← vget v (base + l);
      if decide (nth_bit x bit = 0)
      then partition_loop bit base v (l + 1) r
      else v' ← vswap v (base + l) (base + r);
           partition_loop bit base v' l (r - 1)
    else Some (v, l).
Proof.
  rewrite partition_loop_equation_1.
  destruct (decide (l <= r)); simpl; [|done].
  destruct (vget v (base + l)) as [x|]; simpl; [|done].
  destruct (decide (nth_bit x bit = 0)); [done|].
  by destruct (vswap v (base + l) (base + r)).
Qed.

Lemma snoc_cases {A} (s : list A) : s = [] \/ exists s' y, s = s' ++ [y].
Proof.
  induction s as [|x s' _] using rev_ind; [by left|right; eauto].
Qed.

Lemma partition_loop_app n : forall bit base a mid c l r,
  length mid = n -> vsize a = base + l -> vsize mid = r - l + 1 ->
  partition_loop bit base (a ++ mid ++ c) l r =
    Some (a ++ (partition_seg n bit mid).1 ++ (partition_seg n bit mid).2 ++ c,
          l + vsize (partition_seg n bit mid).1).
Proof.
  induction n as [|n IH]; intros bit base a mid c l r Hn Ha Hm;
    rewrite partition_loop_eq.
  - destruct mid; [|done]. unfold vsize in Hm. simpl in *.
    rewrite decide_False by lia. do 2 f_equal. unfold vsize. simpl. lia.
  - destruct mid as [|x mid]; [done|]. simpl in Hn.
    rewrite vsize_cons in Hm. pose proof (vsize_nonneg mid).
    rewrite decide_True by lia. simpl.
    rewrite (vget_middle a x _ (base + l)) by done. simpl.
    destruct (decide (nth_bit x bit = 0)) as [Hb|Hb].
    + replace (a ++ x :: mid ++ c) with ((a ++ [x]) ++ mid ++ c)
        by (by rewrite <- (assoc_L (++))).
      rewrite (IH bit base (a ++ [x]) mid c (l + 1) r); [|lia|..].
      * destruct (partition_seg n bit mid) as [lo hi]. simpl.
        rewrite <- (assoc_L (++)). simpl. rewrite vsize_cons.
        do 2 f_equal. lia.
      * rewrite vsize_app, vsize_cons. unfold vsize at 2. simpl. lia.
      * lia.
    + destruct (snoc_cases mid) as [->|(mid' & y & ->)].
      * simpl. unfold vsize in Hm; simpl in Hm.
        assert (r = l) as -> by lia.
        rewrite (vswap_same a x c) by done. simpl.
        rewrite partition_loop_eq, decide_False by lia.
        do 2 f_equal. unfold vsize. simpl. lia.
      * rewrite reverse_snoc, reverse_involutive.
        rewrite length_app in Hn. simpl in Hn.
        rewrite vsize_app, vsize_cons in Hm. unfold vsize at 2 in Hm.
        simpl in Hm.
        rewrite <- (assoc_L (++)). simpl.
        rewrite (vswap_ends a x mid' y c (base + l) (base + r)) by lia.
        simpl.
        replace (a ++ y :: mid' ++ x :: c) with (a ++ (y :: mid') ++ (x :: c))
          by done.
        rewrite (IH bit base a (y :: mid') (x :: c) l (r - 1));
          [|simpl; lia|done|rewrite vsize_cons; lia].
        destruct (partition_seg n bit (y :: mid')) as [lo hi]. simpl.
        by rewrite <- !(assoc_L (++)).
Qed.

Lemma partition_seg_spec n : forall bit s,
  length s = n ->
  (partition_seg n bit s).1 ++ (partition_seg n bit s).2 ≡ₚ s /\
  Forall (bit_clear bit) (partition_seg n bit s).1 /\
  Forall (bit_set bit) (partition_seg n bit s).2.
Proof.
  induction n as [|n IH]; intros bit s Hn.
  - destruct s; [|done]. simpl. by repeat constructor.
  - destruct s as [|x s]; [done|]. simpl in Hn. simpl.
    destruct (decide (nth_bit x bit = 0)) as [Hb|Hb].
    + destruct (IH bit s) as (Hp & Hlo & Hhi); [lia|].
      destruct (partition_seg n bit s) as [lo hi]. simpl in *.
      split_and!; [by f_equiv|by constructor|done].
    + destruct (snoc_cases s) as [->|(s' & y & ->)].
      * simpl. by repeat constructor.
      * rewrite reverse_snoc, reverse_involutive.
        rewrite length_app in Hn. simpl in Hn.
        destruct (IH bit (y :: s')) as (Hp & Hlo & Hhi); [simpl; lia|].
        destruct (partition_seg n bit (y :: s')) as [lo hi]. simpl in *.
        split_and!; [|done|].
        -- rewrite (assoc_L (++)), Hp.
           etrans; [symmetry; apply Permutation_cons_append|].
           constructor. apply Permutation_cons_append.
        -- apply Forall_app. split; [done|by repeat constructor].
Qed.

Lemma partition_seg_length n bit s :
  length s = n ->
  vsize (partition_seg n bit s).1 + vsize (partition_seg n bit s).2 = vsize s.
Proof.
  intros Hn. destruct (partition_seg_spec n bit s Hn) as [Hp _].
  apply Permutation_length in Hp. rewrite length_app in Hp.
  unfold vsize. lia.
Qed.

(** Names the two parts [lo] and [hi] of [partition_seg (length s) bit s]
    and adds what is known about them: [Hp] (they are a permutation of
    [s]), [Hlo] and [Hhi] (their bits) and [Hlen] (their sizes). *)
Ltac destruct_partition_seg bit s :=
  destruct (partition_seg_spec (length s) bit s eq_refl) as (Hp & Hlo & Hhi);
  pose proof (partition_seg_length (length s) bit s eq_refl) as Hlen;
  destruct (partition_seg (length s) bit s) as [lo hi]; simpl in *.

Lemma partition_loop_length n : forall bit base v l r v' m,
  Z.to_nat (r - l + 1) = n ->
  partition_loop bit base v l r = Some (v', m) -> length v' = length v.
Proof.
  induction n as [|n IH]; intros bit base v l r v' m Hn;
    rewrite partition_loop_eq; intros H.
  - rewrite decide_False in H by lia. by injection H as <- <-.
  - case_decide; [|by injection H as <- <-].
    destruct (vget v (base + l)) as [x|]; [simpl in H|done].
    destruct (decide (nth_bit x bit = 0)).
    + apply IH in H; [done|lia].
    + destruct (vswap v (base + l) (base + r)) as [v1|] eqn:Hs;
        [simpl in H|done].
      apply vswap_length in Hs. apply IH in H; [|lia]. congruence.
Qed.

(** The cursor [left] never leaves the range it was given, whatever the
    vector holds. *)
Lemma partition_loop_left n : forall bit base v l r v' m,
  Z.to_nat (r - l + 1) = n ->
  partition_loop bit base v l r = Some (v', m) ->
  l <= m <= Z.max l (r + 1) /\ length v' = length v.
Proof.
  induction n as [|n IH]; intros bit base v l r v' m Hn H.
  { split; [|by eapply partition_loop_length].
    rewrite partition_loop_eq, decide_False in H by lia.
    injection H as <- <-. lia. }
  split; [|by eapply partition_loop_length].
  rewrite partition_loop_eq, decide_True in H by lia.
  destruct (vget v (base + l)) as [x|]; [simpl in H|done].
  destruct (decide (nth_bit x bit = 0)).
  - apply IH in H; lia.
  - destruct (vswap v (base + l) (base + r)) as [v1|] eqn:Hs;
      [simpl in H|done].
    apply IH in H; lia.
Qed.

(** ** The recursive variant *)

Lemma bin_radix_sort_rec_inm_eq v vview bit :
  bin_radix_sort_rec_inm v vview bit =
    if decide (sp_size vview <= 1 \/ bit < 0) then Some v
    else
      '(v1, lft) ← partition_loop bit (sp_off vview) v 0
                     (to_int (sp_size vview - 1));
      v2 ← bin_radix_sort_rec_inm v1 (subspan vview 0 lft) (bit - 1);
      bin_radix_sort_rec_inm v2 (subspan_from vview lft) (bit - 1).
Proof.
  rewrite bin_radix_sort_rec_inm_equation_1.
  destruct (decide (sp_size vview <= 1 \/ bit < 0)); simpl; [done|].
  destruct (partition_loop _ _ _ _ _) as [[v1 lft]|]; simpl; [|done].
  by destruct (bin_radix_sort_rec_inm v1 _ _).
Qed.

Lemma to_int_small x : - 2 ^ 31 <= x <= INT_MAX -> to_int x = x.
Proof.
  unfold to_int, INT_MAX. intros H.
  rewrite Z.mod_small; lia.
Qed.

Lemma to_int_le x : 0 <= x -> to_int x <= x.
Proof.
  intros Hx. unfold to_int.
  pose proof (Z.mod_le (x + 2 ^ 31) (2 ^ 32)). lia.
Qed.

Lemma to_int_bits T : to_int (sizeof T * 8 - 1) = bits T - 1.
Proof. by destruct T. Qed.

Lemma bits_pos T : 0 < bits T.
Proof. by destruct T. Qed.

Lemma msd_sort_perm k : forall s, msd_sort k s ≡ₚ s.
Proof.
  induction k as [|k IH]; intros s; simpl; [done|].
  case_decide; [done|].
  destruct (partition_seg_spec (length s) (Z.of_nat k) s eq_refl) as [Hp _].
  destruct (partition_seg _ _ s) as [lo hi]. simpl in Hp.
  by rewrite !IH.
Qed.

Lemma msd_sort_length k s : vsize (msd_sort k s) = vsize s.
Proof. unfold vsize. by rewrite (Permutation_length (msd_sort_perm k s)). Qed.

Lemma bin_radix_sort_rec_inm_app k : forall bit a s c off size,
  bit = Z.of_nat k - 1 -> off = vsize a -> size = vsize s ->
  vsize s <= INT_MAX ->
  bin_radix_sort_rec_inm (a ++ s ++ c) (Span off size) bit =
    Some (a ++ msd_sort k s ++ c).
Proof.
  induction k as [|k IH]; intros bit a s c off size -> -> -> Hs;
    rewrite bin_radix_sort_rec_inm_eq; simpl sp_size; simpl sp_off.
  - by rewrite decide_True by lia.
  - simpl msd_sort. destruct (decide (vsize s <= 1)) as [H1|H1].
    + by rewrite decide_True by lia.
    + rewrite decide_False by lia.
      pose proof (vsize_nonneg s).
      rewrite to_int_small by (unfold INT_MAX in *; lia).
      rewrite (partition_loop_app (length s)); [|done|lia|lia].
      replace (Z.of_nat (S k) - 1) with (Z.of_nat k) by lia.
      destruct_partition_seg (Z.of_nat k) s.
      unfold subspan, subspan_from. simpl.
      pose proof (vsize_nonneg lo). pose proof (vsize_nonneg hi).
      rewrite (IH _ a lo (hi ++ c)); [|lia..]. simpl.
      replace (a ++ msd_sort k lo ++ hi ++ c)
        with ((a ++ msd_sort k lo) ++ hi ++ c)
        by (by rewrite <- (assoc_L (++))).
      rewrite (IH _ (a ++ msd_sort k lo) hi c); [|lia| |lia|lia].
      * by rewrite <- !(assoc_L (++)).
      * rewrite vsize_app, msd_sort_length. lia.
Qed.

Lemma bin_radix_sort_rec_msd T v :
  vsize v <= INT_MAX ->
  bin_radix_sort_rec T v = Some (msd_sort (Z.to_nat (bits T)) v).
Proof.
  intros Hv. unfold bin_radix_sort_rec. rewrite to_int_bits.
  pose proof (bin_radix_sort_rec_inm_app (Z.to_nat (bits T)) (bits T - 1)
                [] v [] 0 (vsize v)) as H.
  simpl in H. rewrite (right_id_L [] (++)) in H.
  rewrite (right_id_L [] (++)) in H. apply H; try done.
  pose proof (bits_pos T). lia.
Qed.

(** ** Order of the result *)

Lemma nth_bit_shiftr x k :
  0 <= k ->
  Z.shiftr x k = 2 * Z.shiftr x (k + 1) + nth_bit x k /\
  (nth_bit x k = 0 \/ nth_bit x k = 1).
Proof.
  intros Hk. unfold nth_bit.
  change 1 with (Z.ones 1) at 2 3 4. rewrite Z.land_ones by lia.
  rewrite <- (Z.shiftr_shiftr x k 1) by lia.
  rewrite (Z.shiftr_div_pow2 _ 1) by lia.
  change (2 ^ 1) with 2.
  pose proof (Z.div_mod (Z.shiftr x k) 2). 
  pose proof (Z.mod_pos_bound (Z.shiftr x k) 2). lia.
Qed.

Lemma shiftr_lt_inv x y k :
  0 <= k -> Z.shiftr x k < Z.shiftr y k -> x < y.
Proof.
  intros Hk. rewrite !Z.shiftr_div_pow2 by done. intros H.
  destruct (decide (x < y)); [done|].
  assert (y `div` 2 ^ k <= x `div` 2 ^ k); [|lia].
  apply Z.div_le_mono; lia.
Qed.

Lemma is_uint_shiftr T x : is_uint T x -> Z.shiftr x (bits T) = 0.
Proof.
  intros [??]. pose proof (bits_pos T).
  rewrite Z.shiftr_div_pow2 by lia. by apply Z.div_small.
Qed.

Lemma StronglySorted_const (q : Z) s :
  Forall (fun x => x = q) s -> StronglySorted Z.le s.
Proof.
  induction 1 as [|x s -> Hs IH]; constructor; [done|].
  eapply Forall_impl; [exact Hs|]. intros y ->. done.
Qed.

Lemma StronglySorted_short (s : list Z) :
  vsize s <= 1 -> StronglySorted Z.le s.
Proof.
  destruct s as [|x [|y s]]; intros H.
  - constructor.
  - by repeat constructor.
  - rewrite !vsize_cons in H. pose proof (vsize_nonneg s). lia.
Qed.

Lemma msd_sort_sorted k : forall s q,
  Forall (fun x => Z.shiftr x (Z.of_nat k) = q) s ->
  StronglySorted Z.le (msd_sort k s).
Proof.
  induction k as [|k IH]; intros s q Hq; simpl.
  - apply (StronglySorted_const q). eapply Forall_impl; [exact Hq|].
    intros x. simpl. by rewrite Z.shiftr_0_r.
  - case_decide; [by apply StronglySorted_short|].
    destruct_partition_seg (Z.of_nat k) s.
    rewrite <- Hp, Forall_app in Hq. destruct Hq as [Hqlo Hqhi].
    assert (Hlo' : Forall (fun x => Z.shiftr x (Z.of_nat k) = 2 * q) lo).
    { rewrite Forall_forall in *. intros x Hx.
      specialize (Hlo x Hx). specialize (Hqlo x Hx). unfold bit_clear in Hlo.
      destruct (nth_bit_shiftr x (Z.of_nat k)) as [E _]; [lia|].
      replace (Z.of_nat k + 1) with (Z.of_nat (S k)) in E by lia. lia. }
    assert (Hhi' : Forall (fun x => Z.shiftr x (Z.of_nat k) = 2 * q + 1) hi).
    { rewrite Forall_forall in *. intros x Hx.
      specialize (Hhi x Hx). specialize (Hqhi x Hx). unfold bit_set in Hhi.
      destruct (nth_bit_shiftr x (Z.of_nat k)) as [E ?]; [lia|].
      replace (Z.of_nat k + 1) with (Z.of_nat (S k)) in E by lia. lia. }
    apply StronglySorted_app_2; [|by eapply IH..].
    intros x1 x2. rewrite !msd_sort_perm. intros H1 H2.
    rewrite Forall_forall in Hlo', Hhi'.
    specialize (Hlo' x1 H1). specialize (Hhi' x2 H2).
    apply Z.lt_le_incl, (shiftr_lt_inv _ _ (Z.of_nat k)); lia.
Qed.

Lemma msd_sort_uint_sorted T v :
  Forall (is_uint T) v -> StronglySorted Z.le (msd_sort (Z.to_nat (bits T)) v).
Proof.
  intros Hv. apply (msd_sort_sorted _ _ 0).
  eapply Forall_impl; [exact Hv|]. intros x Hx.
  pose proof (bits_pos T). rewrite Z2Nat.id by lia.
  by apply is_uint_shiftr.
Qed.

(** Adjacent elements of a sorted vector are in order. *)
Lemma StronglySorted_adjacent (s : list Z) i x y :
  StronglySorted Z.le s -> s !! i = Some x -> s !! S i = Some y -> x <= y.
Proof.
  intros Hs. revert i. induction Hs as [|z s Hs IH Hz]; intros i Hx Hy.
  - done.
  - destruct i as [|i]; simpl in *.
    + injection Hx as ->. rewrite Forall_forall in Hz.
      apply Hz. by eapply list_elem_of_lookup_2.
    + by eapply IH.
Qed.

(** ** The iterative variant *)

Lemma it_body_None s : vget (it_stack s) (it_top s) = None -> it_body s = None.
Proof. unfold it_body. by intros ->. Qed.

(** [it_body] is [it_step] on the pending tasks, and undefined when the
    two tasks it pushes do not fit in the array. *)
Lemma it_body_spec s t :
  vget (it_stack s) (it_top s) = Some t ->
  let ts := take (Z.to_nat (it_top s)) (it_stack s) in
  pending s = ts ++ [t] /\ vsize ts = it_top s /\
  match it_step (it_v s) ts t with
  | None => it_body s = None
  | Some (v', ts') =>
      if decide (vsize ts' <= vsize (it_stack s)) then
        exists s', it_body s = Some s' /\ it_v s' = v' /\ pending s' = ts' /\
          it_top s' + 1 = vsize ts' /\
          length (it_stack s') = length (it_stack s)
      else it_body s = None
  end.
Proof.
  destruct s as [v stk top]. simpl. intros Ht.
  pose proof Ht as [Htop Hlk]%vget_Some.
  pose proof (lookup_lt_Some _ _ _ Hlk) as Hlt.
  remember (Z.to_nat top) as n eqn:Hn.
  assert (Hts : vsize (take n stk) = top).
  { unfold vsize. rewrite length_take. lia. }
  assert (Hpend : forall st : list task, take (Z.to_nat (top - 1 + 1)) st = take n st).
  { intros st. f_equal. lia. }
  split_and!; [|done|].
  { unfold pending. simpl. replace (Z.to_nat (top + 1)) with (S n) by lia.
    by apply take_S_r. }
  unfold it_body, it_step. simpl. rewrite Ht. simpl.
  destruct t as [start size bit].
  destruct (decide (size <= 1 \/ bit < 0)).
  - assert (vsize (take n stk) <= vsize stk)
      by (rewrite Hts; unfold vsize; lia).
    rewrite decide_True by done.
    eexists. split; [done|]. unfold pending. simpl.
    rewrite Hpend. split_and!; [done|done|lia|done].
  - destruct (partition_loop bit 0 v start (start + size - 1))
      as [[v' lft]|]; simpl; [|done].
    rewrite vsize_app, Hts.
    set (L := Task start (lft - start) (bit - 1)).
    set (R := Task lft (size - (lft - start)) (bit - 1)).
    change (vsize [L; R]) with 2.
    assert (Hv1 : vset stk (top - 1 + 1) L = Some (<[n := L]> stk)).
    { apply vset_Some. split; [unfold vsize; lia|]. do 2 f_equal. lia. }
    rewrite Hv1. simpl.
    destruct (decide (top + 2 <= vsize stk)) as [Hfit|Hfit];
      unfold vsize in Hfit.
    + assert (Hv2 : vset (<[n := L]> stk) (top - 1 + 2) R
                    = Some (<[S n := R]> (<[n := L]> stk))).
      { apply vset_Some. unfold vsize. rewrite length_insert.
        split; [lia|]. do 2 f_equal. lia. }
      rewrite Hv2. simpl. eexists. split; [done|]. unfold pending. simpl.
      replace (Z.to_nat (top - 1 + 2 + 1)) with (S (S n)) by lia.
      split_and!; [done| |lia|].
      * rewrite (take_S_r _ _ R).
        2:{ apply list_lookup_insert_eq. rewrite length_insert. lia. }
        rewrite take_insert_ge by lia.
        rewrite (take_S_r _ _ L).
        2:{ apply list_lookup_insert_eq. lia. }
        rewrite take_insert_ge by lia.
        by rewrite <- (assoc_L (++)).
      * by rewrite !length_insert.
    + unfold vset, vsize. rewrite length_insert.
      by rewrite decide_False by lia.
Qed.

(** *** Termination of the outer loop *)

Lemma weight_app ts1 ts2 : weight (ts1 ++ ts2) = (weight ts1 + weight ts2)%nat.
Proof. apply sum_list_with_app. Qed.

Lemma it_step_weight v ts t v' ts' :
  it_step v ts t = Some (v', ts') -> (weight ts' < weight (ts ++ [t]))%nat.
Proof.
  destruct t as [start size bit]. unfold it_step.
  rewrite !weight_app. case_decide as Hc.
  - intros [= <- <-]. unfold weight. simpl. lia.
  - destruct (partition_loop _ _ _ _ _) as [[v1 lft]|] eqn:Hp; [|done].
    simpl. intros [= <- <-].
    apply (partition_loop_left _ _ _ _ _ _ _ _ eq_refl) in Hp as [Hl _].
    rewrite weight_app. unfold weight. simpl.
    replace (Z.to_nat (bit - 1 + 1)) with (Z.to_nat bit) by lia.
    replace (Z.to_nat (bit + 1)) with (S (Z.to_nat bit)) by lia.
    replace (Z.to_nat size)
      with (Z.to_nat (lft - start) + Z.to_nat (size - (lft - start)))%nat
      by lia.
    assert (2 <= Z.to_nat (lft - start) + Z.to_nat (size - (lft - start)))%nat
      by lia.
    nia.
Qed.

Lemma it_body_weight s s' :
  it_body s = Some s' -> (weight (pending s') < weight (pending s))%nat.
Proof.
  intros Hb. destruct (vget (it_stack s) (it_top s)) as [t|] eqn:Ht.
  - destruct (it_body_spec s t Ht) as (-> & _ & H).
    destruct (it_step _ _ t) as [[v' ts']|] eqn:Hs; [|congruence].
    case_decide; [|congruence].
    destruct H as (s1 & H1 & _ & <- & _). rewrite H1 in Hb.
    injection Hb as <-. by eapply it_step_weight.
  - by rewrite it_body_None in Hb.
Qed.

Lemma it_loop_halts n : forall s s',
  (weight (pending s) < n)%nat -> it_loop n s <> Running s'.
Proof.
  induction n as [|n IH]; intros s s' Hw; [lia|]. simpl.
  case_decide; [|done].
  destruct (it_body s) as [s1|] eqn:Hb; [|done].
  apply IH. apply it_body_weight in Hb. lia.
Qed.

Lemma splits_app ts1 ts2 : splits (ts1 ++ ts2) = (splits ts1 + splits ts2)%nat.
Proof. apply sum_list_with_app. Qed.

Lemma it_step_splits v ts t v' ts' :
  it_step v ts t = Some (v', ts') ->
  (splits ts' +
   (if decide (t_size t <= 1 \/ t_bit t < 0)%Z then 0 else 1)
   <= splits (ts ++ [t]))%nat.
Proof.
  destruct t as [start size bit]. unfold it_step. simpl.
  rewrite !splits_app. case_decide as Hc.
  - intros [= <- <-]. lia.
  - destruct (partition_loop _ _ _ _ _) as [[v1 lft]|] eqn:Hp; [|done].
    simpl. intros [= <- <-].
    apply (partition_loop_left _ _ _ _ _ _ _ _ eq_refl) in Hp as [Hl _].
    rewrite splits_app. unfold splits, task_splits. simpl.
    replace (Z.to_nat (bit - 1 + 1)) with (Z.to_nat bit) by lia.
    replace (Z.to_nat (bit + 1)) with (S (Z.to_nat bit)) by lia.
    replace (Z.to_nat size)
      with (Z.to_nat (lft - start) + Z.to_nat (size - (lft - start)))%nat
      by lia.
    assert (2 <= Z.to_nat (lft - start) + Z.to_nat (size - (lft - start)))%nat
      by lia.
    destruct (Z.to_nat (lft - start)) as [|p];
      destruct (Z.to_nat (size - (lft - start))) as [|q]; simpl; nia.
Qed.

Lemma it_partitions_splits n : forall s,
  (it_partitions n s <= splits (pending s))%nat.
Proof.
  induction n as [|n IH]; intros s; simpl; [lia|].
  case_decide as Hge; [|lia].
  unfold it_partitions_here.
  destruct (vget (it_stack s) (it_top s)) as [t|] eqn:Ht.
  - destruct (it_body_spec s t Ht) as (Hpend & _ & Hbody).
    assert (Hhere : ((let '(Task _ size bit) := t in
                      if decide (size <= 1 \/ bit < 0)%Z then 0 else 1)
                     <= task_splits t)%nat).
    { destruct t as [start size bit]. unfold task_splits. simpl.
      case_decide; [lia|].
      assert (1 <= Z.to_nat (bit + 1))%nat by lia.
      assert (1 <= Z.to_nat size - 1)%nat by lia. nia. }
    assert (Hsplits : (task_splits t <= splits (pending s))%nat).
    { rewrite Hpend, splits_app. unfold splits at 2. simpl. lia. }
    destruct (it_body s) as [s'|] eqn:Hb; [|lia].
    destruct (it_step _ _ t) as [[v' ts']|] eqn:Hs; [|congruence].
    case_decide; [|congruence].
    destruct Hbody as (s1 & H1 & _ & Hp & _).
    injection H1 as <-. specialize (IH s'). rewrite Hp in IH.
    apply it_step_splits in Hs. rewrite Hpend.
    destruct t as [start size bit]. simpl in Hs. lia.
  - rewrite it_body_None by done. lia.
Qed.

(** *** The stack and the recursion *)

Lemma segment_split {A} (v : list A) start size :
  0 <= start -> 0 <= size -> start + size <= vsize v ->
  exists a s c, v = a ++ s ++ c /\ vsize a = start /\ vsize s = size.
Proof.
  intros H1 H2 H3. unfold vsize in *.
  exists (take (Z.to_nat start) v),
    (take (Z.to_nat size) (drop (Z.to_nat start) v)),
    (drop (Z.to_nat size) (drop (Z.to_nat start) v)).
  rewrite !take_drop, !length_take, length_drop. split_and!; [done|lia..].
Qed.

Lemma stack_ok_length n W ts : stack_ok n W ts -> vsize ts <= Z.max W 0 + 1.
Proof.
  intros Hok. destruct (snoc_cases ts) as [->|(ts' & t & ->)].
  - unfold vsize. simpl. lia.
  - destruct (Hok (length ts') t) as (_ & _ & ? & ?).
    { by apply list_lookup_middle. }
    rewrite vsize_app. unfold vsize. simpl. lia.
Qed.

Lemma stack_ok_snoc n W ts t :
  stack_ok n W (ts ++ [t]) -> stack_ok n W ts /\ task_ok n W (length ts) t.
Proof.
  intros Hok. split.
  - intros i t' Hi. apply Hok. rewrite lookup_app_l; [done|].
    by eapply lookup_lt_Some.
  - apply Hok. by apply list_lookup_middle.
Qed.

(** One iteration on a task whose range lies in the vector: the partition
    is defined, the tasks pushed are in range, and what is left to do is
    what the recursive lambda does on the popped task. *)
Lemma it_step_ok n W v ts t :
  vsize v = n -> stack_ok n W (ts ++ [t]) ->
  exists v' ts',
    it_step v ts t = Some (v', ts') /\ vsize v' = n /\ stack_ok n W ts' /\
    v' ≡ₚ v /\
    (n <= INT_MAX ->
     drain (reverse ts') v' = drain (reverse (ts ++ [t])) v).
Proof.
  intros Hn [Hts Ht]%stack_ok_snoc.
  destruct t as [start size bit].
  destruct Ht as (Hs0 & Hsz & Hb & Hbi). simpl in *.
  rewrite reverse_snoc. simpl. rewrite bin_radix_sort_rec_inm_eq. simpl.
  destruct (decide (size <= 1 \/ bit < 0)) as [Hc|Hc].
  - exists v, ts. by split_and!.
  - destruct (segment_split v start size) as (a & s & c & -> & Ha & Hs);
      [lia..|].
    rewrite (partition_loop_app (length s) bit 0 a s c start); [|done|lia..].
    destruct (partition_seg_spec (length s) bit s eq_refl) as (Hp & _).
    pose proof (partition_seg_length (length s) bit s eq_refl) as Hlen.
    destruct (partition_seg (length s) bit s) as [lo hi] eqn:Hseg.
    simpl in *.
    pose proof (vsize_nonneg lo). pose proof (vsize_nonneg hi).
    pose proof (vsize_nonneg a). pose proof (vsize_nonneg c).
    rewrite !vsize_app in Hn.
    eexists _, _. split_and!; [done|..].
    + rewrite !vsize_app. lia.
    + intros i t. rewrite lookup_app_Some. intros [Hi|[Hi Hlk]].
      { by apply Hts. }
      destruct (i - length ts)%nat as [|[|j]] eqn:Hj; simpl in Hlk;
        [| |done]; injection Hlk as <-; unfold task_ok; simpl; lia.
    + f_equiv. rewrite (assoc_L (++) lo hi c). by rewrite Hp.
    + intros Hmax.
      rewrite to_int_small by (unfold INT_MAX in *; lia).
      rewrite (partition_loop_app (length s) bit start a s c 0);
        [|done|lia..].
      rewrite Hseg. simpl.
      rewrite reverse_app. simpl. unfold subspan, subspan_from. simpl.
      remember (Z.to_nat bit) as k eqn:Hk.
      rewrite (bin_radix_sort_rec_inm_app k (bit - 1) a lo (hi ++ c)
                 (start + 0) (0 + vsize lo)); [|lia..].
      simpl.
      replace (a ++ msd_sort k lo ++ hi ++ c)
        with ((a ++ msd_sort k lo) ++ hi ++ c)
        by (by rewrite <- (assoc_L (++))).
      rewrite (bin_radix_sort_rec_inm_app k (bit - 1) (a ++ msd_sort k lo) hi c
                 (start + (0 + vsize lo)) (size - (0 + vsize lo)));
        [|lia|rewrite vsize_app, msd_sort_length; lia|lia|lia].
      simpl.
      replace (a ++ lo ++ hi ++ c) with ((a ++ lo) ++ hi ++ c)
        by (by rewrite <- (assoc_L (++))).
      rewrite (bin_radix_sort_rec_inm_app k (bit - 1) (a ++ lo) hi c
                 (start + vsize lo) (size - (start + vsize lo - start)));
        [|lia|rewrite vsize_app; lia|lia|lia].
      simpl. rewrite <- (assoc_L (++)).
      rewrite (bin_radix_sort_rec_inm_app k (bit - 1) a lo (msd_sort k hi ++ c)
                 start (start + vsize lo - start)); [|lia..].
      simpl. by rewrite <- !(assoc_L (++)).
Qed.

Lemma it_init_inv T v s :
  it_init T v = Some s ->
  it_inv T v s /\ pending s = [Task 0 (to_int (vsize v)) (bits T - 1)].
Proof.
  unfold it_init. simpl.
  destruct (vset _ _ _) as [stk|] eqn:Hstk; [|done]. simpl.
  intros [= <-]. apply vset_Some in Hstk as [Hlt ->].
  unfold vsize in Hlt. rewrite length_replicate in Hlt.
  change (-1 + 1) with 0 in *.
  rewrite to_int_bits.
  assert (Hp : pending (ItState v (<[Z.to_nat 0 :=
             Task 0 (to_int (vsize v)) (bits T - 1)]>
               (replicate (length v) (Task 0 0 0))) 0)
          = [Task 0 (to_int (vsize v)) (bits T - 1)]).
  { unfold pending. simpl. destruct v; [simpl in Hlt; lia|done]. }
  split; [|done]. unfold it_inv. rewrite Hp. simpl.
  split_and!; try done.
  - unfold vsize. by rewrite length_insert, length_replicate.
  - intros [|i] t Hi; [|done]. injection Hi as <-.
    unfold task_ok. simpl. pose proof (to_int_le (vsize v) (vsize_nonneg v)).
    pose proof (bits_pos T). lia.
  - intros Hmax. unfold bin_radix_sort_rec. rewrite to_int_bits.
    rewrite to_int_small by (pose proof (vsize_nonneg v); lia).
    by destruct (bin_radix_sort_rec_inm _ _ _).
Qed.

Lemma it_body_inv T v0 s :
  it_inv T v0 s -> it_top s >= 0 ->
  (forall s', it_body s = Some s' -> it_inv T v0 s') /\
  (bits T < vsize v0 -> is_Some (it_body s)).
Proof.
  intros (Hv & Hcap & Htop & Hok & Hperm & Hdrain) Hge.
  assert (is_Some (it_stack s !! Z.to_nat (it_top s))) as [t Ht].
  { apply lookup_lt_is_Some_2. unfold pending, vsize in Htop.
    rewrite length_take in Htop. lia. }
  assert (Hget : vget (it_stack s) (it_top s) = Some t).
  { apply vget_Some. split; [lia|done]. }
  destruct (it_body_spec s t Hget) as (Hpend & Hts & Hbody).
  set (ts := take (Z.to_nat (it_top s)) (it_stack s)) in *.
  rewrite Hpend in Hok, Hdrain.
  destruct (it_step_ok _ _ (it_v s) ts t Hv Hok)
    as (v' & ts' & Hstep & Hv' & Hok' & Hperm' & Hdrain').
  rewrite Hstep in Hbody.
  destruct (decide (vsize ts' <= vsize (it_stack s))) as [Hfit|Hfit].
  - destruct Hbody as (s1 & Hs1 & <- & <- & Htop1 & Hlen1).
    split; [|by rewrite Hs1].
    intros s' Hs'. rewrite Hs1 in Hs'. injection Hs' as <-.
    unfold it_inv. split_and!; try done.
    + unfold vsize in *. by rewrite Hlen1.
    + by rewrite Hperm'.
    + intros Hmax. by rewrite Hdrain', Hdrain.
  - split; [by rewrite Hbody|]. intros HW.
    apply stack_ok_length in Hok'. pose proof (bits_pos T). exfalso. lia.
Qed.

(** When the array has room for [bits T + 1] tasks the outer loop runs to
    its end, and leaves what the recursive variant returns. *)
Lemma it_loop_inv T v0 n : forall s,
  vsize v0 <= INT_MAX -> bits T < vsize v0 -> it_inv T v0 s ->
  (weight (pending s) < n)%nat ->
  exists v', it_loop n s = Returned v' /\ bin_radix_sort_rec T v0 = Some v'.
Proof.
  induction n as [|n IH]; intros s Hmax HW Hinv Hw; [lia|]. simpl.
  case_decide as Hge.
  - destruct (it_body_inv T v0 s Hinv Hge) as [Hstep Hsome].
    destruct (Hsome HW) as [s' Hs']. rewrite Hs'.
    apply IH; [done|done|by apply Hstep|].
    apply it_body_weight in Hs'. lia.
  - destruct Hinv as (_ & _ & Htop & _ & _ & Hdrain).
    specialize (Hdrain Hmax).
    destruct (pending s) as [|t ts].
    + simpl in Hdrain. eauto.
    + rewrite vsize_cons in Htop. pose proof (vsize_nonneg ts). lia.
Qed.

Lemma it_init_weight T v s :
  it_init T v = Some s -> (weight (pending s) < it_bound T v)%nat.
Proof.
  unfold it_init. simpl.
  destruct (vset _ _ _) as [stk|] eqn:Hstk; [|done]. simpl.
  intros [= <-]. apply vset_Some in Hstk as [Hlt ->].
  unfold vsize in Hlt. rewrite length_replicate in Hlt.
  change (-1 + 1) with 0 in *. unfold pending. simpl.
  destruct v as [|x v]; [simpl in Hlt; lia|]. simpl replicate.
  unfold weight, it_bound, task_weight. simpl sum_list_with.
  simpl t_bit. simpl t_size. rewrite to_int_bits.
  replace (Z.to_nat (bits T - 1 + 1)) with (Z.to_nat (bits T)) by (f_equal; lia).
  assert (Z.to_nat (to_int (vsize (x :: v))) <= length (x :: v))%nat; [|nia].
  unfold to_int, vsize.
  pose proof (Z.mod_le (Z.of_nat (length (x :: v)) + 2 ^ 31) (2 ^ 32)).
  lia.
Qed.

Lemma bin_radix_sort_it_halts T v s : bin_radix_sort_it T v <> Running s.
Proof.
  unfold bin_radix_sort_it. destruct (it_init T v) as [s0|] eqn:H0; [|done].
  apply it_loop_halts. by eapply it_init_weight.
Qed.

Lemma bin_radix_sort_it_rec T v :
  bits T < vsize v <= INT_MAX ->
  exists v', bin_radix_sort_it T v = Returned v' /\
             bin_radix_sort_rec T v = Some v'.
Proof.
  intros [HW Hmax]. unfold bin_radix_sort_it.
  destruct (it_init T v) as [s0|] eqn:H0.
  - apply it_loop_inv; [done|done|by apply it_init_inv|by eapply it_init_weight].
  - unfold it_init in H0. simpl in H0.
    unfold vset in H0. rewrite decide_True in H0; [done|].
    unfold vsize in *. rewrite length_replicate.
    pose proof (bits_pos T). lia.
Qed.

(** ** Calls of the recursive variant *)

Lemma bin_radix_sort_rec_inm_length k : forall v vview bit v',
  Z.to_nat (bit + 1) = k ->
  bin_radix_sort_rec_inm v vview bit = Some v' -> length v' = length v.
Proof.
  induction k as [|k IH]; intros v vview bit v' Hk;
    rewrite bin_radix_sort_rec_inm_eq; intros H.
  - rewrite decide_True in H by lia. by injection H as <-.
  - case_decide; [by injection H as <-|].
    destruct (partition_loop _ _ _ _ _) as [[v1 lft]|] eqn:Hp;
      [simpl in H|done].
    destruct (bin_radix_sort_rec_inm v1 _ _) as [v2|] eqn:H1;
      [simpl in H|done].
    apply (partition_loop_length _ _ _ _ _ _ _ _ eq_refl) in Hp.
    apply IH in H1; [|lia]. apply IH in H; [|lia]. congruence.
Qed.

Lemma rec_call_inv T v d v1 vview bit :
  rec_call T v d v1 vview bit ->
  vsize v1 = vsize v /\
  0 <= sp_off vview /\ 0 <= sp_size vview /\
  sp_off vview + sp_size vview <= vsize v /\
  bit = bits T - 1 - Z.of_nat d /\ -1 <= bit.
Proof.
  induction 1 as
    [|d v0 vview bit v1 lft _ IH Hc Hp
     |d v0 vview bit v1 lft v2 _ IH Hc Hp Hrec].
  - rewrite to_int_bits. simpl. pose proof (vsize_nonneg v).
    pose proof (bits_pos T). lia.
  - destruct IH as (Hv & Ho & Hs & Hos & -> & Hb).
    apply (partition_loop_left _ _ _ _ _ _ _ _ eq_refl) in Hp as [Hl Hlen].
    pose proof (to_int_le (sp_size vview - 1)).
    unfold vsize in *. simpl. lia.
  - destruct IH as (Hv & Ho & Hs & Hos & -> & Hb).
    apply (partition_loop_left _ _ _ _ _ _ _ _ eq_refl) in Hp as [Hl Hlen].
    apply (bin_radix_sort_rec_inm_length _ _ _ _ _ eq_refl) in Hrec.
    pose proof (to_int_le (sp_size vview - 1)).
    unfold vsize in *. simpl. lia.
Qed.

(** ** States of the iterative variant *)

Lemma it_reach_inv T v s : it_reach T v s -> it_inv T v s.
Proof.
  induction 1 as [s H0|s s' _ IH Hge Hb].
  - by apply it_init_inv.
  - by apply (it_body_inv T v s IH Hge).
Qed.

(** ** Reading concatenated vectors *)

Lemma vget_app_r {A} (a s : list A) i :
  vsize a <= i -> vget (a ++ s) i = vget s (i - vsize a).
Proof.
  intros Hi. pose proof (vsize_nonneg a). unfold vget, vsize in *.
  rewrite !decide_True by lia. rewrite lookup_app_r by lia.
  f_equal. lia.
Qed.

Lemma vget_app_l {A} (s c : list A) i :
  i < vsize s -> vget (s ++ c) i = vget s i.
Proof.
  intros Hi. unfold vget, vsize in *. case_decide; [|done].
  apply lookup_app_l. lia.
Qed.

Lemma vget_is_Some {A} (s : list A) i :
  0 <= i < vsize s -> is_Some (vget s i).
Proof.
  intros Hi. unfold vget, vsize in *. rewrite decide_True by lia.
  apply lookup_lt_is_Some_2. lia.
Qed.

Lemma Forall_vget {A} (P : A -> Prop) (s : list A) i :
  Forall P s -> 0 <= i < vsize s -> exists x, vget s i = Some x /\ P x.
Proof.
  intros HP Hi. destruct (vget_is_Some s i Hi) as [x Hx].
  exists x. split; [done|]. apply vget_Some in Hx as [_ Hx].
  by eapply Forall_lookup_1.
Qed.

(** ** The comparison helper *)

(** As long as the counter stays within [int], the loop returns true
    exactly when the two vectors hold the same element at each index it
    visits. *)
Lemma equal_vectors_from_true n : forall i v1 v2,
  0 <= i -> i + Z.of_nat n <= INT_MAX ->
  equal_vectors_from n i v1 v2 = Some true <->
  forall j, (Z.to_nat i <= j < Z.to_nat i + n)%nat ->
    is_Some (v1 !! j) /\ v2 !! j = v1 !! j.
Proof.
  induction n as [|n IH]; intros i v1 v2 Hi Hmax; simpl.
  - split; [intros _ j; lia|done].
  - unfold vget. rewrite !decide_True by lia.
    replace (Z.to_nat i + S n)%nat with (Z.to_nat (i + 1) + n)%nat by lia.
    split.
    + intros H j Hj.
      destruct (v1 !! Z.to_nat i) as [x|] eqn:Hx; [simpl in H|done].
      destruct (v2 !! Z.to_nat i) as [y|] eqn:Hy; [simpl in H|done].
      destruct (decide (x <> y)) as [|Hxy%dec_stable]; [done|subst y].
      destruct (decide (j = Z.to_nat i)) as [->|].
      * rewrite Hx, Hy. eauto.
      * rewrite IH in H by lia. apply H. lia.
    + intros H. destruct (H (Z.to_nat i)) as [[x Hx] Hy]; [lia|].
      rewrite Hx in *. rewrite Hy. simpl.
      rewrite decide_False by (intros Hne; by apply Hne).
      rewrite IH by lia. intros j Hj. apply H. lia.
Qed.

Lemma equal_vectors_from_take n : forall i v1 v2 m,
  0 <= i -> (Z.to_nat i + n <= m)%nat ->
  equal_vectors_from n i v1 (take m v2) = equal_vectors_from n i v1 v2.
Proof.
  induction n as [|n IH]; intros i v1 v2 m Hi Hm; simpl; [done|].
  unfold vget. rewrite !(decide_True (P := 0 <= i)) by lia.
  rewrite lookup_take_lt by lia.
  destruct (v1 !! Z.to_nat i) as [x|]; [simpl|done].
  destruct (v2 !! Z.to_nat i) as [y|]; [simpl|done].
  case_decide; [done|]. case_decide; [|done]. apply IH; lia.
Qed.

(** When the two vectors agree up to index [INT_MAX], which is inside
    both, the increment of the counter at that index overflows. *)
Lemma equal_vectors_from_overflow n : forall i v,
  0 <= i <= INT_MAX -> i + Z.of_nat n = vsize v -> INT_MAX < vsize v ->
  equal_vectors_from n i v v = None.
Proof.
  induction n as [|n IH]; intros i v Hi Hn Hmax; [lia|]. simpl.
  destruct (vget_is_Some v i) as [x Hx]; [lia|]. rewrite Hx. simpl.
  rewrite decide_False by (intros Hne; by apply Hne).
  case_decide; [|done]. apply IH; lia.
Qed.

(** ** Vectors of more than [INT_MAX] elements *)

Lemma vsize_oversize : vsize oversize = 2147483649.
Proof.
  unfold oversize. rewrite vsize_cons. unfold vsize.
  rewrite length_replicate. lia.
Qed.

Lemma oversize_0 : oversize !! 0%nat = Some 1.
Proof. reflexivity. Qed.

Lemma oversize_1 : oversize !! 1%nat = Some 0.
Proof.
  unfold oversize. rewrite lookup_cons_ne_0 by lia.
  apply lookup_replicate_2. lia.
Qed.

Lemma oversize_uint T : Forall (is_uint T) oversize.
Proof.
  assert (H : 2 <= 2 ^ bits T).
  { pose proof (bits_pos T).
    change 2 with (2 ^ 1) at 1. apply Z.pow_le_mono_r; lia. }
  apply Forall_cons. split; [unfold is_uint; lia|].
  apply Forall_replicate. unfold is_uint. lia.
Qed.

(** With its cursor [right] negative, the partition loop of the recursive
    variant does not run. *)
Lemma partition_loop_oversize bit base v size :
  2 ^ 31 < size <= 2 ^ 32 ->
  partition_loop bit base v 0 (to_int (size - 1)) = Some (v, 0).
Proof.
  intros Hsize. rewrite partition_loop_eq.
  rewrite decide_False; [done|].
  unfold to_int.
  replace (size - 1 + 2 ^ 31) with (size - 1 - 2 ^ 31 + 1 * 2 ^ 32) by lia.
  rewrite Z_mod_plus_full, Z.mod_small by lia. lia.
Qed.

(** So a call of the lambda on a span of [2^31 + 1] to [2^32] elements
    changes nothing: each partition leaves the boundary at 0, the call on
    the low part is on no element and the call on the high part is on the
    same span with the next bit. *)
Lemma bin_radix_sort_rec_inm_oversize k : forall v off size bit,
  Z.to_nat (bit + 1) = k -> 2 ^ 31 < size <= 2 ^ 32 ->
  bin_radix_sort_rec_inm v (Span off size) bit = Some v.
Proof.
  induction k as [|k IH]; intros v off size bit Hk Hsize;
    rewrite bin_radix_sort_rec_inm_eq; simpl.
  - rewrite decide_True by lia. done.
  - rewrite decide_False by lia.
    rewrite partition_loop_oversize by done. cbn [mbind option_bind].
    rewrite (bin_radix_sort_rec_inm_eq v (subspan _ 0 0)).
    rewrite decide_True by (left; simpl; lia). cbn [mbind option_bind].
    unfold subspan_from. simpl. apply IH; lia.
Qed.

Lemma bin_radix_sort_rec_oversize T v :
  2 ^ 31 < vsize v <= 2 ^ 32 -> bin_radix_sort_rec T v = Some v.
Proof.
  intros Hv. unfold bin_radix_sort_rec.
  by apply (bin_radix_sort_rec_inm_oversize _ _ _ _ _ eq_refl).
Qed.

(** ** Ranges of the tasks *)


(** ** Results of the two variants *)

(** The recursive variant returns the reference sort of its input. *)
Lemma bin_radix_sort_rec_reference T v :
  Forall (is_uint T) v -> vsize v <= INT_MAX ->
  bin_radix_sort_rec T v = Some (reference_sort v).
Proof.
  intros Hv Hmax. rewrite bin_radix_sort_rec_msd by done. f_equal.
  apply (StronglySorted_unique Z.le).
  - by apply msd_sort_uint_sorted.
  - apply Sorted_StronglySorted; [apply _|]. apply Sorted_merge_sort; apply _.
  - unfold reference_sort.
    by rewrite msd_sort_perm, merge_sort_Permutation.
Qed.

(** The recursive variant permutes its input. *)
Lemma bin_radix_sort_rec_perm T v :
  vsize v <= INT_MAX ->
  exists v', bin_radix_sort_rec T v = Some v' /\ v' ≡ₚ v.
Proof.
  intros Hmax. eexists. split; [by apply bin_radix_sort_rec_msd|].
  apply msd_sort_perm.
Qed.

(** A partition step of the iterative variant permutes the values of its
    range: the range [seg] becomes [lo ++ hi], the two sub-ranges pushed. *)
Lemma it_step_perm a seg c start size bit ts :
  vsize a = start -> vsize seg = size -> ~ (size <= 1 \/ bit < 0) ->
  exists lo hi,
    it_step (a ++ seg ++ c) ts (Task start size bit) =
      Some (a ++ lo ++ hi ++ c,
            ts ++ [Task start (vsize lo) (bit - 1);
                   Task (start + vsize lo) (vsize hi) (bit - 1)]) /\
    lo ++ hi ≡ₚ seg.
Proof.
  intros Ha Hs Hc. unfold it_step. rewrite decide_False by done.
  rewrite (partition_loop_app (length seg) bit 0 a seg c start); [|done|lia..].
  destruct_partition_seg bit seg.
  exists lo, hi. split; [|done]. repeat f_equal; lia.
Qed.

(** With more than [bits T] elements, the iterative variant returns the
    reference sort of its input. *)
Lemma bin_radix_sort_it_reference T v :
  Forall (is_uint T) v -> bits T < vsize v <= INT_MAX ->
  bin_radix_sort_it T v = Returned (reference_sort v).
Proof.
  intros Hv Hn. destruct (bin_radix_sort_it_rec T v Hn) as (v' & -> & H).
  rewrite bin_radix_sort_rec_reference in H by (done || lia). congruence.
Qed.

(** When the iterative variant returns, it returns a permutation of its
    input. *)
Lemma it_loop_perm T v n : forall s v',
  it_inv T v s -> it_loop n s = Returned v' -> v' ≡ₚ v.
Proof.
  induction n as [|n IH]; intros s v' Hinv; simpl.
  - case_decide; [done|]. intros [= <-]. apply Hinv.
  - case_decide as Hge; [|intros [= <-]; apply Hinv].
    destruct (it_body s) as [s'|] eqn:Hb; [|done].
    apply IH. by apply (it_body_inv T v s Hinv Hge).
Qed.

Lemma bin_radix_sort_it_perm T v v' :
  bin_radix_sort_it T v = Returned v' -> v' ≡ₚ v.
Proof.
  unfold bin_radix_sort_it.
  destruct (it_init T v) as [s|] eqn:Hs; [|done].
  apply (it_loop_perm T). by apply it_init_inv.
Qed.

(** The stack of the iterative variant never holds more than [bits T + 1]
    tasks. *)
Lemma pending_depth T v s :
  it_reach T v s -> vsize (pending s) <= bits T + 1.
Proof.
  intros Hs.
  destruct (it_reach_inv T v s Hs) as (_ & _ & _ & Hok & _).
  apply stack_ok_length in Hok. pose proof (bits_pos T). lia.
Qed.

(** The calls of the recursive lambda nest at most [bits T] deep below the
    first one, and the bit of a call is [bits T - 1] minus its depth. *)
Lemma rec_call_depth T v d v1 vview bit :
  rec_call T v d v1 vview bit ->
  Z.of_nat d <= bits T /\ bit = bits T - 1 - Z.of_nat d.
Proof.
  intros H.
  destruct (rec_call_inv T v d v1 vview bit H) as (_ & _ & _ & _ & ? & ?).
  lia.
Qed.

(** The iterative variant makes at most [bits T * v.size()] partition
    steps. *)
Lemma it_partitions_bound T v s n :
  it_init T v = Some s ->
  (it_partitions n s <= Z.to_nat (bits T) * length v)%nat.
Proof.
  intros Hs. etrans; [apply it_partitions_splits|].
  destruct (it_init_inv T v s Hs) as [_ ->].
  unfold splits, task_splits. simpl.
  replace (Z.to_nat (bits T - 1 + 1)) with (Z.to_nat (bits T)) by (f_equal; lia).
  pose proof (to_int_le (vsize v) (vsize_nonneg v)). unfold vsize in *. nia.
Qed.

(** Sorting the 8-bit values [255, 255], both iterations are partition
    steps: the second one partitions and then pushes out of bounds. *)
Lemma it_partitions_255_255 n :
  it_partitions (2 + n) (ItState [255; 255] [Task 0 2 7; Task 0 0 0] 0)
    = 2%nat.
Proof. reflexivity. Qed.

Lemma it_loop_S n s :
  it_loop (S n) s =
    if decide (it_top s >= 0) then
      match it_body s with
      | None => Undefined
      | Some s' => it_loop n s'
      end
    else Returned (it_v s).
Proof. done. Qed.

(** * The claims *)

(** C1, for every input sequence.  The cursors of the partition loop are
    [int]s.  On [oversize], a vector of [2^31 + 1] values of the element
    type, [right = vview.size() - 1] is negative once converted to [int]:
    no partition loop runs, [bin_radix_sort_rec] returns the vector as it
    was, and its first element, 1, is greater than its second, 0. *)
Lemma bin_radix_sort_rec_oversize_not_ascending :
  Forall (is_uint uint8_t) oversize /\
  bin_radix_sort_rec uint8_t oversize = Some oversize /\
  ~ (exists v', bin_radix_sort_rec uint8_t oversize = Some v' /\
       forall i x y, v' !! i = Some x -> v' !! S i = Some y -> x <= y).
Proof.
  assert (H : bin_radix_sort_rec uint8_t oversize = Some oversize).
  { apply bin_radix_sort_rec_oversize. rewrite vsize_oversize. lia. }
  split_and!; [apply oversize_uint|exact H|].
  intros (v' & Hv' & Hasc). rewrite H in Hv'. injection Hv' as <-.
  pose proof (Hasc 0%nat 1 0 oversize_0 oversize_1). lia.
Qed.

(** C1. After [bin_radix_sort_rec] returns, the vector is in ascending
    order: each element is at most the one that follows it.  The vector
    holds values of the element type [T], and has at most [INT_MAX]
    elements, the sizes that the [int] cursors of the source represent. *)
Theorem bin_radix_sort_rec_ascending T v :
  Forall (is_uint T) v -> vsize v <= INT_MAX ->
  exists v', bin_radix_sort_rec T v = Some v' /\
    forall i x y, v' !! i = Some x -> v' !! S i = Some y -> x <= y.
Proof.
  intros Hv Hmax. eexists. split; [by apply bin_radix_sort_rec_msd|].
  intros i x y. apply StronglySorted_adjacent.
  by apply msd_sort_uint_sorted.
Qed.

Lemma bin_radix_sort_rec_ascending_witness :
  Forall (is_uint uint8_t) [5; 2; 8; 1; 9; 3] /\
  vsize [5; 2; 8; 1; 9; 3] <= INT_MAX /\
  exists v', bin_radix_sort_rec uint8_t [5; 2; 8; 1; 9; 3] = Some v' /\
    forall i x y, v' !! i = Some x -> v' !! S i = Some y -> x <= y.
Proof.
  assert (H : Forall (is_uint uint8_t) [5; 2; 8; 1; 9; 3]).
  { repeat constructor; unfold is_uint; simpl; lia. }
  assert (H' : vsize [5; 2; 8; 1; 9; 3] <= INT_MAX) by (vm_compute; discriminate).
  split; [exact H|]. split; [exact H'|].
  exact (bin_radix_sort_rec_ascending uint8_t [5; 2; 8; 1; 9; 3] H H').
Defined.

(** C2. The multiset of the elements is kept by a partition step
    ([it_step_perm]), by the recursive variant ([bin_radix_sort_rec_perm])
    and by the iterative variant when it returns
    ([bin_radix_sort_it_perm]); but on the three equal 8-bit values
    [7, 7, 7] the iterative variant writes outside its stack and has no
    result, where the recursive variant returns its input. *)
Theorem bin_radix_sort_it_7_7_7 :
  bin_radix_sort_it uint8_t [7; 7; 7] = Undefined /\
  bin_radix_sort_rec uint8_t [7; 7; 7] = Some [7; 7; 7].
Proof. split; vm_compute; reflexivity. Qed.

(** C3. On the two 8-bit values [255, 255] the recursive variant returns
    the reference sort and the iterative variant writes outside its stack:
    the variants agree with the reference on vectors of more than [bits T]
    elements ([bin_radix_sort_it_reference],
    [bin_radix_sort_rec_reference]), not on every vector. *)
Theorem variants_differ_255_255 :
  bin_radix_sort_rec uint8_t [255; 255] = Some (reference_sort [255; 255]) /\
  bin_radix_sort_it uint8_t [255; 255] = Undefined /\
  bin_radix_sort_it uint8_t [255; 255] <> Returned (reference_sort [255; 255]).
Proof. split_and!; [vm_compute; reflexivity..|done]. Qed.

(** C4. The number of pending tasks is not bounded by the length of the
    input.  Sorting the 8-bit values [255, 255], the run reaches a state
    with two pending tasks in its stack of two elements whose iteration
    leaves three tasks pending: the iteration writes [stack[2]].  Sorting
    the empty vector, the first write [stack[0]] is already outside the
    stack of no elements. *)
Theorem stack_overflow_255_255 :
  it_init uint8_t [] = None /\
  exists s,
    it_reach uint8_t [255; 255] s /\
    vsize (it_stack s) = 2 /\
    pending s = [Task 0 0 6; Task 0 2 6] /\
    it_step (it_v s) [Task 0 0 6] (Task 0 2 6) =
      Some ([255; 255], [Task 0 0 6; Task 0 0 5; Task 0 2 5]) /\
    it_body s = None.
Proof.
  split; [done|].
  exists (ItState [255; 255] [Task 0 0 6; Task 0 2 6] 1).
  split_and!; try (vm_compute; reflexivity).
  eapply (it_reach_body _ _ (ItState [255; 255] [Task 0 2 7; Task 0 0 0] 0)).
  - by apply it_reach_init.
  - done.
  - vm_compute. reflexivity.
Qed.

(** C5. On a vector of one element both variants return it unchanged, and
    on the empty vector the recursive variant returns at once; but on the
    empty vector the iterative variant writes [stack[0]] in a stack of no
    elements before its loop is entered. *)
Theorem empty_and_singleton T x :
  bin_radix_sort_rec T [] = Some [] /\
  bin_radix_sort_rec T [x] = Some [x] /\
  bin_radix_sort_it T [x] = Returned [x] /\
  it_init T [] = None /\
  bin_radix_sort_it T [] = Undefined.
Proof.
  assert (Hrec : forall v : list Z, vsize v <= 1 ->
            bin_radix_sort_rec T v = Some v).
  { intros v Hv. unfold bin_radix_sort_rec.
    rewrite bin_radix_sort_rec_inm_eq.
    by rewrite decide_True by (left; done). }
  split_and!.
  - by apply Hrec.
  - by apply Hrec.
  - by destruct T.
  - done.
  - done.
Qed.

(** C6, for every view.  On the view of the whole of [oversize], of
    [2^31 + 1] elements, and bit 0, the loop of the recursive variant
    starts with [right = vview.size() - 1] negative as an [int]: it ends at
    once with [left = 0] and the view as it was, 1 followed by 0s, in which
    no index is a boundary between values whose bit 0 is 0 and values whose
    bit 0 is 1. *)
Lemma partition_loop_oversize_no_boundary :
  1 <= vsize oversize /\
  partition_loop 0 0 oversize 0 (to_int (vsize oversize - 1))
    = Some (oversize, 0) /\
  ~ (exists lft, 0 <= lft <= vsize oversize /\
       (forall i, 0 <= i < lft ->
          exists x, vget oversize i = Some x /\ nth_bit x 0 = 0) /\
       (forall i, lft <= i < vsize oversize ->
          exists x, vget oversize i = Some x /\ nth_bit x 0 = 1)).
Proof.
  rewrite vsize_oversize. split_and!; [lia| |].
  - apply partition_loop_oversize. lia.
  - assert (H0 : vget oversize 0 = Some 1) by (apply vget_Some; done).
    assert (H1 : vget oversize 1 = Some 0).
    { apply vget_Some. split; [lia|]. exact oversize_1. }
    intros (lft & Hlft & Hlo & Hhi).
    destruct (decide (1 <= lft)) as [Hle|Hgt].
    + destruct (Hlo 0) as (x & Hx & Hbit); [lia|].
      rewrite H0 in Hx. injection Hx as <-. discriminate Hbit.
    + destruct (Hhi 1) as (x & Hx & Hbit); [lia|].
      rewrite H1 in Hx. injection Hx as <-. discriminate Hbit.
Qed.

(** C6. The boundary left by the partition loop.  For a range of at least
    one and at most [INT_MAX] elements inside the vector and a bit index
    [bit >= 0], the loop of either variant ends with the cursor [left] at a
    boundary: the range holds the values whose bit is 0 before the boundary
    and the values whose bit is 1 from the boundary on.  The recursive
    variant counts [left] from the start of its span, the iterative one
    from the start of the vector. *)
Theorem partition_loop_boundary bit v start size :
  0 <= bit -> 1 <= size <= INT_MAX -> 0 <= start ->
  start + size <= vsize v ->
  exists v' lft,
    partition_loop bit start v 0 (to_int (size - 1)) = Some (v', lft - start) /\
    partition_loop bit 0 v start (start + size - 1) = Some (v', lft) /\
    start <= lft <= start + size /\
    (forall i, start <= i < lft ->
       exists x, vget v' i = Some x /\ nth_bit x bit = 0) /\
    (forall i, lft <= i < start + size ->
       exists x, vget v' i = Some x /\ nth_bit x bit = 1).
Proof.
  intros Hbit Hsize Hstart Hend.
  destruct (segment_split v start size) as (a & s & c & -> & Ha & Hs);
    [lia..|].
  rewrite to_int_small by (unfold INT_MAX in *; lia).
  rewrite (partition_loop_app (length s) bit start a s c 0); [|done|lia..].
  rewrite (partition_loop_app (length s) bit 0 a s c start); [|done|lia..].
  destruct_partition_seg bit s.
  pose proof (vsize_nonneg lo). pose proof (vsize_nonneg hi).
  exists (a ++ lo ++ hi ++ c), (start + vsize lo).
  split_and!; [do 2 f_equal; lia|done|lia|lia|..].
  - intros i Hi. rewrite vget_app_r, vget_app_l by lia.
    apply (Forall_vget _ _ _ Hlo). lia.
  - intros i Hi. rewrite vget_app_r, vget_app_r, vget_app_l by lia.
    destruct (Forall_vget _ hi (i - vsize a - vsize lo) Hhi) as (x & Hx & Hb);
      [lia|].
    exists x. split; [done|]. unfold bit_set in Hb.
    destruct (nth_bit_shiftr x bit Hbit) as [_ [?|?]]; [done|done].
Qed.

Lemma partition_loop_boundary_witness :
  0 <= 0 /\ 1 <= 3 <= INT_MAX /\ 0 <= 1 /\ 1 + 3 <= vsize [4; 1; 0; 3; 7] /\
  exists v' lft,
    partition_loop 0 1 [4; 1; 0; 3; 7] 0 (to_int (3 - 1)) = Some (v', lft - 1) /\
    partition_loop 0 0 [4; 1; 0; 3; 7] 1 (1 + 3 - 1) = Some (v', lft) /\
    1 <= lft <= 1 + 3 /\
    (forall i, 1 <= i < lft ->
       exists x, vget v' i = Some x /\ nth_bit x 0 = 0) /\
    (forall i, lft <= i < 1 + 3 ->
       exists x, vget v' i = Some x /\ nth_bit x 0 = 1).
Proof.
  assert (H1 : 0 <= 0) by lia.
  assert (H2 : 1 <= 3 <= INT_MAX) by (unfold INT_MAX; lia).
  assert (H3 : 0 <= 1) by lia.
  assert (H4 : 1 + 3 <= vsize [4; 1; 0; 3; 7]) by (vm_compute; discriminate).
  split; [exact H1|]. split; [exact H2|]. split; [exact H3|].
  split; [exact H4|].
  exact (partition_loop_boundary 0 [4; 1; 0; 3; 7] 1 3 H1 H2 H3 H4).
Defined.

(** C7. The calls of the recursive variant nest at most [bits T] deep
    ([rec_call_depth]), and the loop of the iterative variant always ends
    within [it_bound] iterations, at most [bits T * v.size()] of them
    partition steps ([bin_radix_sort_it_halts], [it_partitions_bound]);
    but sorting the 8-bit values [255, 255] it does not end with an empty
    stack: its second iteration writes outside the stack, whatever the
    number of iterations allowed. *)
Theorem it_loop_255_255_never_returns n v' :
  it_init uint8_t [255; 255]
    = Some (ItState [255; 255] [Task 0 2 7; Task 0 0 0] 0) /\
  it_loop n (ItState [255; 255] [Task 0 2 7; Task 0 0 0] 0) <> Returned v' /\
  it_loop (2 + n) (ItState [255; 255] [Task 0 2 7; Task 0 0 0] 0) = Undefined.
Proof.
  assert (H0 : it_body (ItState [255; 255] [Task 0 2 7; Task 0 0 0] 0)
               = Some (ItState [255; 255] [Task 0 0 6; Task 0 2 6] 1))
    by (vm_compute; reflexivity).
  assert (H1 : it_body (ItState [255; 255] [Task 0 0 6; Task 0 2 6] 1) = None)
    by (vm_compute; reflexivity).
  split_and!; [done| |].
  - destruct n as [|[|n]]; [done| |].
    + rewrite it_loop_S, H0. done.
    + rewrite it_loop_S, H0. simpl decide. cbv iota.
      rewrite it_loop_S, H1. done.
  - change (2 + n)%nat with (S (S n)).
    rewrite it_loop_S, H0. simpl decide. cbv iota.
    rewrite it_loop_S, H1. done.
Qed.


(** C9. Frame of one partition step of the iterative variant.  In a run
    of [bin_radix_sort_it], when the popped task [(start, size, bit)] has
    [size >= 2] and [bit >= 0], the partition is defined, the vector of the
    next state is its result, every element outside
    [start, start + size) is unchanged, and neither the new values of the
    range nor the boundary depend on the elements outside the range. *)
Theorem it_body_frame T v s start size bit :
  it_reach T v s ->
  vget (it_stack s) (it_top s) = Some (Task start size bit) ->
  2 <= size -> 0 <= bit ->
  exists v' lft,
    partition_loop bit 0 (it_v s) start (start + size - 1) = Some (v', lft) /\
    (forall s', it_body s = Some s' -> it_v s' = v') /\
    (forall i, i < start \/ start + size <= i -> vget v' i = vget (it_v s) i) /\
    exists a seg seg' c,
      it_v s = a ++ seg ++ c /\ v' = a ++ seg' ++ c /\
      vsize a = start /\ vsize seg = size /\ vsize seg' = size /\
      forall a' c', vsize a' = start ->
        partition_loop bit 0 (a' ++ seg ++ c') start (start + size - 1)
          = Some (a' ++ seg' ++ c', lft).
Proof.
  intros Hreach Hget Hsize Hbit.
  destruct (it_reach_inv T v s Hreach) as (Hn & _ & _ & Hok & _).
  destruct (it_body_spec s _ Hget) as (Hpend & _ & _).
  rewrite Hpend in Hok. apply stack_ok_snoc in Hok as [_ (Hstart & Hend & _)].
  simpl in Hstart, Hend. rewrite <- Hn in Hend.
  destruct (segment_split (it_v s) start size) as (a & seg & c & Hv & Ha & Hs);
    [lia..|].
  assert (Hloop : forall a' c', vsize a' = start ->
    partition_loop bit 0 (a' ++ seg ++ c') start (start + size - 1) =
      Some (a' ++ ((partition_seg (length seg) bit seg).1 ++
                   (partition_seg (length seg) bit seg).2) ++ c',
            start + vsize (partition_seg (length seg) bit seg).1)).
  { intros a' c' Ha'.
    rewrite (partition_loop_app (length seg) bit 0 a' seg c' start);
      [|done|lia..].
    by rewrite <- (assoc_L (++)). }
  pose proof (partition_seg_length (length seg) bit seg eq_refl) as Hlen.
  destruct (partition_seg (length seg) bit seg) as [lo hi]. simpl in *.
  exists (a ++ (lo ++ hi) ++ c), (start + vsize lo).
  assert (Hseg' : vsize (lo ++ hi) = size) by (rewrite vsize_app; lia).
  split_and!.
  - rewrite Hv. by apply Hloop.
  - intros s'. unfold it_body. rewrite Hget. simpl.
    rewrite decide_False by lia. rewrite Hv, (Hloop a c Ha). simpl.
    destruct (vset (it_stack s) _ _) as [stk1|]; [simpl|done].
    destruct (vset stk1 _ _) as [stk2|]; [simpl|done].
    by intros [= <-].
  - rewrite Hv. intros i [Hi|Hi].
    + by rewrite !vget_app_l by lia.
    + rewrite !vget_app_r by lia. f_equal. lia.
  - exists a, seg, (lo ++ hi), c. by split_and!.
Qed.

Lemma it_body_frame_witness :
  let s := ItState [6; 3; 4] [Task 0 3 7; Task 0 0 0; Task 0 0 0] 0 in
  it_reach uint8_t [6; 3; 4] s /\
  vget (it_stack s) (it_top s) = Some (Task 0 3 7) /\
  2 <= 3 /\ 0 <= 7 /\
  exists v' lft,
    partition_loop 7 0 (it_v s) 0 (0 + 3 - 1) = Some (v', lft) /\
    (forall s', it_body s = Some s' -> it_v s' = v') /\
    (forall i, i < 0 \/ 0 + 3 <= i -> vget v' i = vget (it_v s) i) /\
    exists a seg seg' c,
      it_v s = a ++ seg ++ c /\ v' = a ++ seg' ++ c /\
      vsize a = 0 /\ vsize seg = 3 /\ vsize seg' = 3 /\
      forall a' c', vsize a' = 0 ->
        partition_loop 7 0 (a' ++ seg ++ c') 0 (0 + 3 - 1)
          = Some (a' ++ seg' ++ c', lft).
Proof.
  intros s.
  assert (H0 : it_reach uint8_t [6; 3; 4] s)
    by (apply it_reach_init; reflexivity).
  assert (H1 : vget (it_stack s) (it_top s) = Some (Task 0 3 7))
    by reflexivity.
  assert (H2 : 2 <= 3) by lia.
  assert (H3 : 0 <= 7) by lia.
  split; [exact H0|]. split; [exact H1|]. split; [exact H2|].
  split; [exact H3|].
  exact (it_body_frame uint8_t [6; 3; 4] s 0 3 7 H0 H1 H2 H3).
Defined.

(** C10, for every [v1].  The counter of the loop is an [int].  Comparing
    [oversize], of [2^31 + 1] elements, with itself, the vectors hold the
    same element at every index, and the loop reaches index [INT_MAX]
    without a mismatch: the [++i] that follows overflows, which is
    undefined behaviour, so [equal_vectors] has no result.  (Where the
    overflow wraps, [i < v1.size()] is then false and the call returns
    without having compared the elements from index [2^31] on.) *)
Lemma equal_vectors_oversize :
  equal_vectors oversize oversize = None /\
  ~ (equal_vectors oversize oversize = Some true <->
       forall i x, oversize !! i = Some x -> oversize !! i = Some x).
Proof.
  assert (H : equal_vectors oversize oversize = None).
  { unfold equal_vectors. apply equal_vectors_from_overflow.
    - unfold INT_MAX. lia.
    - unfold vsize. lia.
    - rewrite vsize_oversize. unfold INT_MAX. lia. }
  split; [exact H|]. rewrite H. intros [_ Himp].
  discriminate Himp. intros i x Hx. exact Hx.
Qed.

(** C10. For a [v1] of at most [INT_MAX] elements, [equal_vectors v1 v2]
    returns true exactly when [v2[i] == v1[i]] at every index [i] below the
    length of [v1]; its result does not depend on the elements of [v2]
    from the length of [v1] on, so it is true for an empty [v1] and for a
    [v2] that extends [v1]. *)
Theorem equal_vectors_true v1 v2 ext :
  vsize v1 <= INT_MAX ->
  (equal_vectors v1 v2 = Some true <->
     forall i x, v1 !! i = Some x -> v2 !! i = Some x) /\
  equal_vectors v1 v2 = equal_vectors v1 (take (length v1) v2) /\
  equal_vectors [] v2 = Some true /\
  equal_vectors v1 (v1 ++ ext) = Some true.
Proof.
  intros Hmax.
  assert (Hiff : forall w2, equal_vectors v1 w2 = Some true <->
     forall i x, v1 !! i = Some x -> w2 !! i = Some x).
  { intros w2. unfold equal_vectors.
    rewrite equal_vectors_from_true by (unfold vsize in Hmax; lia). split.
    - intros H i x Hx. destruct (H i) as [_ ->]; [|done].
      apply lookup_lt_Some in Hx. lia.
    - intros H j Hj. destruct (lookup_lt_is_Some_2 v1 j) as [x Hx]; [lia|].
      rewrite Hx. split; [by eexists|]. by apply H. }
  split_and!.
  - apply Hiff.
  - unfold equal_vectors. symmetry.
    apply equal_vectors_from_take; simpl; lia.
  - done.
  - apply Hiff. intros i x Hx. rewrite lookup_app_l; [done|].
    by eapply lookup_lt_Some.
Qed.

Lemma equal_vectors_true_witness :
  vsize [3; 1; 2] <= INT_MAX /\
  (equal_vectors [3; 1; 2] [3; 1; 2; 7] = Some true <->
     forall i x, [3; 1; 2] !! i = Some x -> [3; 1; 2; 7] !! i = Some x) /\
  equal_vectors [3; 1; 2] [3; 1; 2; 7]
    = equal_vectors [3; 1; 2] (take (length [3; 1; 2]) [3; 1; 2; 7]) /\
  equal_vectors [] [3; 1; 2; 7] = Some true /\
  equal_vectors [3; 1; 2] ([3; 1; 2] ++ [7]) = Some true.
Proof.
  assert (H : vsize [3; 1; 2] <= INT_MAX) by (vm_compute; discriminate).
  split; [exact H|].
  exact (equal_vectors_true [3; 1; 2] [3; 1; 2; 7] [7] H).
Defined.

(** * Further properties of the source *)

(** ** The recursive variant *)

(** X1. [bin_radix_sort_rec] is defined on every vector of at most
    [INT_MAX] elements, whatever their values, and returns a permutation of
    it of the same length. *)
Theorem bin_radix_sort_rec_permutes T v :
  vsize v <= INT_MAX ->
  exists v', bin_radix_sort_rec T v = Some v' /\ v' ≡ₚ v /\
             length v' = length v.
Proof.
  intros Hmax. destruct (bin_radix_sort_rec_perm T v Hmax) as (v' & Hv' & Hp).
  exists v'. split_and!; [done|done|]. by apply Permutation_length.
Qed.

Lemma bin_radix_sort_rec_permutes_witness :
  vsize [200; 4; 7; 7; 0] <= INT_MAX /\
  exists v', bin_radix_sort_rec uint8_t [200; 4; 7; 7; 0] = Some v' /\
             v' ≡ₚ [200; 4; 7; 7; 0] /\
             length v' = length [200; 4; 7; 7; 0].
Proof.
  assert (H : vsize [200; 4; 7; 7; 0] <= INT_MAX) by (vm_compute; discriminate).
  split; [exact H|].
  exact (bin_radix_sort_rec_permutes uint8_t [200; 4; 7; 7; 0] H).
Defined.

(** X2. On a vector of values of type [T], [bin_radix_sort_rec] returns
    what the reference sort returns: the ascending permutation of its
    input. *)
Theorem bin_radix_sort_rec_is_reference T v :
  Forall (is_uint T) v -> vsize v <= INT_MAX ->
  bin_radix_sort_rec T v = Some (reference_sort v) /\
  Sorted Z.le (reference_sort v) /\ reference_sort v ≡ₚ v.
Proof.
  intros Hv Hmax. split_and!.
  - by apply bin_radix_sort_rec_reference.
  - apply Sorted_merge_sort; apply _.
  - apply merge_sort_Permutation.
Qed.

Lemma bin_radix_sort_rec_is_reference_witness :
  Forall (is_uint uint16_t) [513; 2; 65535; 0; 2] /\
  vsize [513; 2; 65535; 0; 2] <= INT_MAX /\
  bin_radix_sort_rec uint16_t [513; 2; 65535; 0; 2]
    = Some (reference_sort [513; 2; 65535; 0; 2]) /\
  Sorted Z.le (reference_sort [513; 2; 65535; 0; 2]) /\
  reference_sort [513; 2; 65535; 0; 2] ≡ₚ [513; 2; 65535; 0; 2].
Proof.
  assert (H : Forall (is_uint uint16_t) [513; 2; 65535; 0; 2]).
  { repeat constructor; unfold is_uint; simpl; lia. }
  assert (H' : vsize [513; 2; 65535; 0; 2] <= INT_MAX)
    by (vm_compute; discriminate).
  split; [exact H|]. split; [exact H'|].
  exact (bin_radix_sort_rec_is_reference uint16_t [513; 2; 65535; 0; 2] H H').
Defined.






(** X5. The invariant of the recursion.  When the range of a call has at
    most [INT_MAX] elements and its values agree on every bit above [bit]
    (they have the same [x >> (bit + 1)]), the call leaves the range in
    ascending order, a permutation of what it was. *)
Theorem bin_radix_sort_rec_inm_sorts bit q a s c :
  -1 <= bit -> vsize s <= INT_MAX ->
  Forall (fun x => Z.shiftr x (bit + 1) = q) s ->
  exists s',
    bin_radix_sort_rec_inm (a ++ s ++ c) (Span (vsize a) (vsize s)) bit
      = Some (a ++ s' ++ c) /\
    s' ≡ₚ s /\ Sorted Z.le s'.
Proof.
  intros Hbit Hmax Hq. exists (msd_sort (Z.to_nat (bit + 1)) s).
  split_and!.
  - apply bin_radix_sort_rec_inm_app; [lia|done|done|done].
  - apply msd_sort_perm.
  - apply StronglySorted_Sorted. apply (msd_sort_sorted _ _ q).
    by rewrite Z2Nat.id by lia.
Qed.

Lemma bin_radix_sort_rec_inm_sorts_witness :
  -1 <= 1 /\ vsize [14; 12; 15; 13] <= INT_MAX /\
  Forall (fun x => Z.shiftr x (1 + 1) = 3) [14; 12; 15; 13] /\
  exists s',
    bin_radix_sort_rec_inm ([9; 9] ++ [14; 12; 15; 13] ++ [0])
      (Span (vsize [9; 9]) (vsize [14; 12; 15; 13])) 1
      = Some ([9; 9] ++ s' ++ [0]) /\
    s' ≡ₚ [14; 12; 15; 13] /\ Sorted Z.le s'.
Proof.
  assert (H : -1 <= 1) by lia.
  assert (H' : vsize [14; 12; 15; 13] <= INT_MAX) by (vm_compute; discriminate).
  assert (Hq : Forall (fun x => Z.shiftr x (1 + 1) = 3) [14; 12; 15; 13]).
  { repeat constructor. }
  split; [exact H|]. split; [exact H'|]. split; [exact Hq|].
  exact (bin_radix_sort_rec_inm_sorts 1 3 [9; 9] [14; 12; 15; 13] [0] H H' Hq).
Defined.

(** X6. The calls of the recursive lambda nest at most [bits T] deep below
    the first one, whatever the length of the vector: a call at depth [d]
    has bit [bits T - 1 - d], and the storage it is entered with has the
    length of the input. *)
Theorem rec_call_nesting T v d v1 vview bit :
  rec_call T v d v1 vview bit ->
  Z.of_nat d <= bits T /\ bit = bits T - 1 - Z.of_nat d /\
  length v1 = length v.
Proof.
  intros H. destruct (rec_call_inv T v d v1 vview bit H) as (Hl & _ & _ & _ & ? & ?).
  split_and!; [lia|done|]. unfold vsize in Hl. lia.
Qed.

Lemma rec_call_nesting_witness :
  rec_call uint8_t [3; 1] 1 [3; 1]
    (subspan (Span 0 (vsize [3; 1])) 0 2)
    (to_int (sizeof uint8_t * 8 - 1) - 1) /\
  Z.of_nat 1 <= bits uint8_t /\
  to_int (sizeof uint8_t * 8 - 1) - 1 = bits uint8_t - 1 - Z.of_nat 1 /\
  length [3; 1] = length [3; 1].
Proof.
  assert (H : rec_call uint8_t [3; 1] 1 [3; 1]
                (subspan (Span 0 (vsize [3; 1])) 0 2)
                (to_int (sizeof uint8_t * 8 - 1) - 1)).
  { apply (rec_call_low uint8_t [3; 1] 0 [3; 1]).
    - apply rec_call_first.
    - vm_compute. intros [H|H]; [apply H; reflexivity|discriminate H].
    - vm_compute. reflexivity. }
  split; [exact H|].
  exact (rec_call_nesting uint8_t [3; 1] 1 [3; 1] _ _ H).
Defined.

(** ** The partition loop *)



(** ** The iterative variant *)

Lemma it_loop_returned T v n : forall s v',
  vsize v <= INT_MAX -> it_inv T v s -> it_loop n s = Returned v' ->
  bin_radix_sort_rec T v = Some v'.
Proof.
  assert (Hend : forall s v', vsize v <= INT_MAX -> it_inv T v s ->
            ~ it_top s >= 0 -> Returned (it_v s) = Returned v' ->
            bin_radix_sort_rec T v = Some v').
  { intros s v' Hmax (_ & _ & Htop & _ & _ & Hdrain) Hlt [= <-].
    rewrite <- (Hdrain Hmax).
    destruct (pending s) as [|t ts]; [done|].
    rewrite vsize_cons in Htop. pose proof (vsize_nonneg ts). lia. }
  induction n as [|n IH]; intros s v' Hmax Hinv; simpl.
  - case_decide; [done|]. by apply Hend.
  - case_decide as Hge; [|by apply Hend].
    destruct (it_body s) as [s'|] eqn:Hb; [|done].
    apply IH; [done|]. by apply (it_body_inv T v s Hinv Hge).
Qed.

(** X8. With more than [bits T] elements (and at most [INT_MAX]), the
    iterative variant returns, and returns the vector that the recursive
    variant returns, whatever the values of the elements. *)
Theorem bin_radix_sort_it_equals_rec T v :
  bits T < vsize v <= INT_MAX ->
  exists v', bin_radix_sort_it T v = Returned v' /\
             bin_radix_sort_rec T v = Some v' /\ v' ≡ₚ v.
Proof.
  intros Hn. destruct (bin_radix_sort_it_rec T v Hn) as (v' & Hit & Hrec).
  exists v'. split_and!; [done|done|]. by eapply bin_radix_sort_it_perm.
Qed.

Lemma bin_radix_sort_it_equals_rec_witness :
  bits uint8_t < vsize [9; 8; 7; 6; 5; 4; 3; 2; 1] <= INT_MAX /\
  exists v', bin_radix_sort_it uint8_t [9; 8; 7; 6; 5; 4; 3; 2; 1] = Returned v' /\
             bin_radix_sort_rec uint8_t [9; 8; 7; 6; 5; 4; 3; 2; 1] = Some v' /\
             v' ≡ₚ [9; 8; 7; 6; 5; 4; 3; 2; 1].
Proof.
  assert (H : bits uint8_t < vsize [9; 8; 7; 6; 5; 4; 3; 2; 1] <= INT_MAX)
    by (split; vm_compute; [reflexivity|discriminate]).
  split; [exact H|].
  exact (bin_radix_sort_it_equals_rec uint8_t [9; 8; 7; 6; 5; 4; 3; 2; 1] H).
Defined.

(** X9. On a vector of more than [bits T] values of type [T], the
    iterative variant returns the ascending permutation of its input, the
    result of the reference sort. *)
Theorem bin_radix_sort_it_is_reference T v :
  Forall (is_uint T) v -> bits T < vsize v <= INT_MAX ->
  bin_radix_sort_it T v = Returned (reference_sort v) /\
  Sorted Z.le (reference_sort v) /\ reference_sort v ≡ₚ v.
Proof.
  intros Hv Hn. split_and!.
  - by apply bin_radix_sort_it_reference.
  - apply Sorted_merge_sort; apply _.
  - apply merge_sort_Permutation.
Qed.

Lemma bin_radix_sort_it_is_reference_witness :
  Forall (is_uint uint8_t) [255; 255; 255; 255; 255; 255; 255; 255; 0] /\
  bits uint8_t < vsize [255; 255; 255; 255; 255; 255; 255; 255; 0]
    <= INT_MAX /\
  bin_radix_sort_it uint8_t [255; 255; 255; 255; 255; 255; 255; 255; 0]
    = Returned (reference_sort [255; 255; 255; 255; 255; 255; 255; 255; 0]) /\
  Sorted Z.le (reference_sort [255; 255; 255; 255; 255; 255; 255; 255; 0]) /\
  reference_sort [255; 255; 255; 255; 255; 255; 255; 255; 0]
    ≡ₚ [255; 255; 255; 255; 255; 255; 255; 255; 0].
Proof.
  assert (H : Forall (is_uint uint8_t)
                [255; 255; 255; 255; 255; 255; 255; 255; 0]).
  { repeat constructor; unfold is_uint; simpl; lia. }
  assert (H' : bits uint8_t
               < vsize [255; 255; 255; 255; 255; 255; 255; 255; 0]
               <= INT_MAX)
    by (split; vm_compute; [reflexivity|discriminate]).
  split; [exact H|]. split; [exact H'|].
  exact (bin_radix_sort_it_is_reference uint8_t
           [255; 255; 255; 255; 255; 255; 255; 255; 0] H H').
Defined.

(** X10. Whenever the iterative variant returns, on a vector of any
    length, it returns a permutation of its input; and when the input has at
    most [INT_MAX] elements, the vector it returns is the one that the
    recursive variant returns. *)
Theorem bin_radix_sort_it_returned T v v' :
  bin_radix_sort_it T v = Returned v' ->
  v' ≡ₚ v /\ (vsize v <= INT_MAX -> bin_radix_sort_rec T v = Some v').
Proof.
  intros Hit. split; [by eapply bin_radix_sort_it_perm|].
  intros Hmax. unfold bin_radix_sort_it in Hit.
  destruct (it_init T v) as [s|] eqn:Hs; [|done].
  apply (it_loop_returned T v (it_bound T v) s); [done| |done].
  by apply it_init_inv.
Qed.

Lemma bin_radix_sort_it_returned_witness :
  bin_radix_sort_it uint8_t [5; 2; 8; 1; 9; 3] = Returned [1; 2; 3; 5; 8; 9] /\
  [1; 2; 3; 5; 8; 9] ≡ₚ [5; 2; 8; 1; 9; 3] /\
  (vsize [5; 2; 8; 1; 9; 3] <= INT_MAX ->
   bin_radix_sort_rec uint8_t [5; 2; 8; 1; 9; 3] = Some [1; 2; 3; 5; 8; 9]).
Proof.
  assert (H : bin_radix_sort_it uint8_t [5; 2; 8; 1; 9; 3]
              = Returned [1; 2; 3; 5; 8; 9]) by (vm_compute; reflexivity).
  split; [exact H|].
  exact (bin_radix_sort_it_returned uint8_t [5; 2; 8; 1; 9; 3] _ H).
Defined.

(** X11. The stack of the iterative variant needs [bits T + 1] elements
    and no more: in every state of a run at most [bits T + 1] tasks are
    pending, so [top] is at most [bits T], and when the vector has more than
    [bits T] elements the next iteration stays inside the stack. *)
Theorem it_stack_depth T v s :
  it_reach T v s ->
  vsize (pending s) <= bits T + 1 /\ it_top s <= bits T /\
  (it_top s >= 0 -> bits T < vsize v -> is_Some (it_body s)).
Proof.
  intros Hs. pose proof (pending_depth T v s Hs) as Hd.
  pose proof (it_reach_inv T v s Hs) as Hinv.
  split_and!; [done| |].
  - destruct Hinv as (_ & _ & Htop & _). lia.
  - intros Hge. by apply (it_body_inv T v s Hinv Hge).
Qed.

Lemma it_stack_depth_witness :
  let s := ItState [255; 255] [Task 0 0 6; Task 0 2 6] 1 in
  it_reach uint8_t [255; 255] s /\
  vsize (pending s) <= bits uint8_t + 1 /\ it_top s <= bits uint8_t /\
  (it_top s >= 0 -> bits uint8_t < vsize [255; 255] -> is_Some (it_body s)).
Proof.
  intros s.
  assert (H : it_reach uint8_t [255; 255] s).
  { eapply (it_reach_body _ _ (ItState [255; 255] [Task 0 2 7; Task 0 0 0] 0)).
    - apply it_reach_init. reflexivity.
    - vm_compute. discriminate.
    - vm_compute. reflexivity. }
  split; [exact H|].
  exact (it_stack_depth uint8_t [255; 255] s H).
Defined.

Lemma it_loop_more n : forall s k,
  (forall s', it_loop n s <> Running s') -> it_loop (n + k) s = it_loop n s.
Proof.
  induction n as [|n IH]; intros s k Hn.
  - simpl in *. case_decide; [by destruct (Hn s)|].
    destruct k; simpl; by rewrite decide_False.
  - simpl in *. case_decide; [|done].
    destruct (it_body s) as [s'|]; [|done]. by apply IH.
Qed.

(** X12. The loop of the iterative variant always comes to an end, within
    [2 * bits T * v.size() + 2] iterations: run for that many iterations or
    for more, it has returned or has made an access out of bounds, with the
    same outcome. *)
Theorem it_loop_ends T v s n :
  it_init T v = Some s -> (it_bound T v <= n)%nat ->
  it_loop n s = bin_radix_sort_it T v /\
  (bin_radix_sort_it T v = Undefined \/
   exists v', bin_radix_sort_it T v = Returned v').
Proof.
  intros Hs Hn. split.
  - unfold bin_radix_sort_it. rewrite Hs.
    replace n with (it_bound T v + (n - it_bound T v))%nat by lia.
    apply it_loop_more. intros s'. apply it_loop_halts.
    by apply it_init_weight.
  - pose proof (bin_radix_sort_it_halts T v) as Hh.
    destruct (bin_radix_sort_it T v) as [v'| |s']; [right; eauto|by left|].
    by destruct (Hh s').
Qed.

Lemma it_loop_ends_witness :
  let s := ItState [2; 1] [Task 0 2 7; Task 0 0 0] 0 in
  it_init uint8_t [2; 1] = Some s /\
  (it_bound uint8_t [2; 1]%Z <= 40)%nat /\
  it_loop 40 s = bin_radix_sort_it uint8_t [2; 1] /\
  (bin_radix_sort_it uint8_t [2; 1] = Undefined \/
   exists v', bin_radix_sort_it uint8_t [2; 1] = Returned v').
Proof.
  intros s.
  assert (H : it_init uint8_t [2; 1] = Some s) by reflexivity.
  assert (H' : (it_bound uint8_t [2; 1]%Z <= 40)%nat) by (vm_compute; lia).
  split; [exact H|]. split; [exact H'|].
  exact (it_loop_ends uint8_t [2; 1] s 40 H H').
Defined.

(** X13. However many iterations the iterative variant makes, at most
    [bits T * v.size()] of them are partition steps, the iteration whose
    push is out of bounds included when there is one. *)
Theorem it_partition_steps T v s n :
  it_init T v = Some s ->
  (it_partitions n s <= Z.to_nat (bits T) * length v)%nat.
Proof. intros Hs. by apply it_partitions_bound. Qed.

Lemma it_partition_steps_witness :
  let s := ItState [2; 1; 3] [Task 0 3 7; Task 0 0 0; Task 0 0 0] 0 in
  it_init uint8_t [2; 1; 3] = Some s /\
  (it_partitions 50 s <= Z.to_nat (bits uint8_t) * length [2; 1; 3]%Z)%nat.
Proof.
  intros s.
  assert (H : it_init uint8_t [2; 1; 3] = Some s) by reflexivity.
  split; [exact H|].
  exact (it_partition_steps uint8_t [2; 1; 3] s 50 H).
Defined.

(** When every value of a range has the bit set, the partition leaves the
    boundary at the start of the range. *)
Lemma partition_loop_all_set bit v :
  1 <= vsize v -> Forall (bit_set bit) v ->
  exists v', partition_loop bit 0 v 0 (0 + vsize v - 1) = Some (v', 0) /\
             v' ≡ₚ v.
Proof.
  intros Hn Hset.
  pose proof (partition_loop_app (length v) bit 0 [] v [] 0 (0 + vsize v - 1))
    as Hloop.
  simpl in Hloop. rewrite !(right_id_L [] (++)) in Hloop.
  rewrite Hloop; [|done|done|lia]. clear Hloop.
  destruct_partition_seg bit v.
  destruct lo as [|x lo].
  - simpl in *. eauto.
  - exfalso. apply Forall_cons in Hlo as [Hx _].
    rewrite <- Hp in Hset. apply Forall_cons in Hset as [Hx' _]. done.
Qed.

(** The run on a vector whose values have their [n - 1] highest bits set:
    after [j] iterations [top] is [j] and the whole vector is on top of the
    stack, to be partitioned on bit [W - 1 - j]. *)
Lemma it_loop_climbs W (v : list Z) m : forall j s k,
  Z.of_nat m = vsize v - 1 - j -> 0 <= j -> 2 <= vsize v <= W ->
  Forall (fun x => forall b, W - vsize v < b < W -> nth_bit x b <> 0) (it_v s) ->
  vsize (it_v s) = vsize v -> vsize (it_stack s) = vsize v ->
  it_top s = j ->
  vget (it_stack s) (it_top s) = Some (Task 0 (vsize v) (W - 1 - j)) ->
  it_loop (S m + k) s = Undefined.
Proof.
  induction m as [|m IH]; intros j s k Hm Hj Hn Hbits Hv Hcap Htop Hget;
    cbn [Nat.add].
  - rewrite it_loop_S, decide_True by lia.
    unfold it_body. rewrite Hget. simpl.
    rewrite decide_False by lia.
    destruct (partition_loop _ _ _ _ _) as [[v' lft]|]; [simpl|done].
    destruct (vset (it_stack s) _ _) as [stk1|] eqn:H1; [simpl|done].
    apply vset_length in H1. unfold vset, vsize in *.
    rewrite decide_False by lia. done.
  - rewrite it_loop_S, decide_True by lia.
    unfold it_body. rewrite Hget. cbn -[it_loop].
    rewrite decide_False by lia.
    destruct (partition_loop_all_set (W - 1 - j) (it_v s)) as (v' & Hloop & Hp).
    { lia. }
    { eapply Forall_impl; [exact Hbits|]. intros x Hx. apply Hx. lia. }
    rewrite <- Hv at 1. rewrite Hloop. cbn -[it_loop].
    set (L := Task 0 (0 - 0) (W - 1 - j - 1)).
    set (R := Task 0 (vsize v - (0 - 0)) (W - 1 - j - 1)).
    assert (H1 : vset (it_stack s) (it_top s - 1 + 1) L
                 = Some (<[Z.to_nat j := L]> (it_stack s))).
    { apply vset_Some. split; [lia|]. do 2 f_equal. lia. }
    rewrite H1. cbn -[it_loop].
    assert (H2 : vset (<[Z.to_nat j := L]> (it_stack s)) (it_top s - 1 + 2) R
                 = Some (<[Z.to_nat (j + 1) := R]>
                           (<[Z.to_nat j := L]> (it_stack s)))).
    { apply vset_Some. unfold vsize in *. rewrite length_insert.
      split; [lia|]. do 2 f_equal. lia. }
    rewrite H2. cbn -[it_loop].
    apply (IH (j + 1)); simpl; [lia|lia|done|by rewrite Hp| | |lia|].
    + unfold vsize in *. by rewrite (Permutation_length Hp).
    + unfold vsize in *. by rewrite !length_insert.
    + apply vget_Some. split; [lia|].
      replace (Z.to_nat (it_top s - 1 + 2)) with (Z.to_nat (j + 1)) by lia.
      rewrite list_lookup_insert_eq.
      * unfold R. do 2 f_equal; lia.
      * unfold vsize in *. rewrite length_insert. lia.
Qed.

(** X14. Vectors on which the iterative variant writes outside its stack.
    When the vector has between 2 and [bits T] elements and every element
    has its [v.size() - 1] highest bits set, each of the first
    [v.size() - 1] iterations leaves one more task pending and the next one
    writes [stack[v.size()]]. *)
Theorem bin_radix_sort_it_overflows T v :
  2 <= vsize v <= bits T ->
  Forall (fun x => forall b, bits T - vsize v < b < bits T ->
                             nth_bit x b <> 0) v ->
  bin_radix_sort_it T v = Undefined.
Proof.
  intros Hn Hbits. unfold bin_radix_sort_it.
  destruct (it_init T v) as [s|] eqn:Hs; [|done].
  destruct (it_init_inv T v s Hs) as [(Hv & Hcap & Htop & _) Hpend].
  assert (Hsmall : vsize v <= INT_MAX).
  { unfold INT_MAX. destruct T; unfold bits in Hn; simpl in Hn; lia. }
  rewrite to_int_small in Hpend by (unfold INT_MAX in *; lia).
  rewrite Hpend in Htop. change (vsize [_]) with 1 in Htop.
  assert (Hfuel : it_bound T v
                  = (S (Z.to_nat (vsize v - 1)) + (it_bound T v - length v))%nat).
  { unfold it_bound, vsize in *.
    assert (1 <= Z.to_nat (bits T))%nat by lia. nia. }
  rewrite Hfuel.
  apply (it_loop_climbs (bits T) v _ 0); try done; try lia.
  - unfold it_init in Hs. simpl in Hs.
    destruct (vset _ _ _); [|done]. simpl in Hs. by injection Hs as <-.
  - apply vget_Some. split; [lia|].
    assert (Hl : pending s !! 0%nat
                 = Some (Task 0 (vsize v) (bits T - 1))) by by rewrite Hpend.
    unfold pending in Hl. rewrite lookup_take_lt in Hl by lia.
    replace (Z.to_nat (it_top s)) with 0%nat by lia.
    rewrite Hl. do 2 f_equal. lia.
Qed.

Lemma bin_radix_sort_it_overflows_witness :
  2 <= vsize [65000; 64512; 65535; 64513] <= bits uint16_t /\
  Forall (fun x => forall b,
            bits uint16_t - vsize [65000; 64512; 65535; 64513] < b
              < bits uint16_t -> nth_bit x b <> 0)
    [65000; 64512; 65535; 64513] /\
  bin_radix_sort_it uint16_t [65000; 64512; 65535; 64513] = Undefined.
Proof.
  assert (H : 2 <= vsize [65000; 64512; 65535; 64513] <= bits uint16_t)
    by (split; vm_compute; discriminate).
  assert (H' : Forall (fun x => forall b,
            bits uint16_t - vsize [65000; 64512; 65535; 64513] < b
              < bits uint16_t -> nth_bit x b <> 0)
    [65000; 64512; 65535; 64513]).
  { repeat constructor; intros b Hb; change (12 < b < 16) in Hb;
      assert (b = 13 \/ b = 14 \/ b = 15) as [->|[->| ->]] by lia;
      vm_compute; discriminate. }
  split; [exact H|]. split; [exact H'|].
  exact (bin_radix_sort_it_overflows uint16_t [65000; 64512; 65535; 64513] H H').
Defined.

(** ** The comparison helper *)

Lemma vget_cons_succ {A} (x : A) (v : list A) i :
  0 <= i -> vget (x :: v) (i + 1) = vget v i.
Proof.
  intros Hi. unfold vget. rewrite !decide_True by lia.
  replace (Z.to_nat (i + 1)) with (S (Z.to_nat i)) by lia. done.
Qed.

(** While the counter stays within [int], the loop on two vectors from
    index [i + 1] is the loop on their tails from index [i]. *)
Lemma equal_vectors_from_cons n x y : forall i v1 v2,
  0 <= i -> i + 1 + Z.of_nat n <= INT_MAX ->
  equal_vectors_from n (i + 1) (x :: v1) (y :: v2)
    = equal_vectors_from n i v1 v2.
Proof.
  induction n as [|n IH]; intros i v1 v2 Hi Hmax; simpl; [done|].
  rewrite !vget_cons_succ by done.
  destruct (vget v1 i) as [a|]; [simpl|done].
  destruct (vget v2 i) as [b|]; [simpl|done].
  case_decide; [done|].
  rewrite !decide_True by lia. apply IH; lia.
Qed.

Lemma equal_vectors_cons x y v1 v2 :
  vsize (x :: v1) <= INT_MAX ->
  equal_vectors (x :: v1) (y :: v2)
    = if decide (x <> y) then Some false else equal_vectors v1 v2.
Proof.
  intros Hmax. rewrite vsize_cons in Hmax. pose proof (vsize_nonneg v1).
  unfold equal_vectors, vsize in *. simpl. case_decide; [done|].
  apply (equal_vectors_from_cons (length v1) x y 0); lia.
Qed.

Lemma equal_vectors_refl v :
  vsize v <= INT_MAX -> equal_vectors v v = Some true.
Proof.
  induction v as [|x v IH]; intros Hmax; [done|].
  rewrite equal_vectors_cons by done.
  rewrite decide_False by (intros H; by apply H).
  apply IH. rewrite vsize_cons in Hmax. lia.
Qed.

Lemma reference_sort_vsize v : vsize (reference_sort v) = vsize v.
Proof.
  unfold vsize, reference_sort. f_equal.
  apply Permutation_length, merge_sort_Permutation.
Qed.

(** X15. On two vectors of the same length, as the benchmark calls it,
    and of at most [INT_MAX] elements, the values of its [int] counter,
    [equal_vectors] reads inside both vectors and returns whether they are
    equal. *)
Theorem equal_vectors_same_length v1 v2 :
  vsize v1 <= INT_MAX -> length v1 = length v2 ->
  equal_vectors v1 v2 = Some (bool_decide (v1 = v2)).
Proof.
  revert v2. induction v1 as [|x v1 IH]; intros [|y v2] Hmax Hlen; try done.
  rewrite equal_vectors_cons by done.
  rewrite vsize_cons in Hmax. simpl in Hlen.
  destruct (decide (x <> y)) as [Hne|Heq%dec_stable].
  - by rewrite bool_decide_eq_false_2 by congruence.
  - subst y. rewrite IH by lia. f_equal.
    apply bool_decide_ext. split; [by intros ->|by intros [= ->]].
Qed.

Lemma equal_vectors_same_length_witness :
  vsize [4; 8; 15] <= INT_MAX /\
  length [4; 8; 15] = length [4; 8; 16] /\
  equal_vectors [4; 8; 15] [4; 8; 16]
    = Some (bool_decide ([4; 8; 15] = [4; 8; 16])).
Proof.
  assert (H0 : vsize [4; 8; 15] <= INT_MAX) by (vm_compute; discriminate).
  assert (H : length [4; 8; 15] = length [4; 8; 16]) by reflexivity.
  split; [exact H0|]. split; [exact H|].
  exact (equal_vectors_same_length [4; 8; 15] [4; 8; 16] H0 H).
Defined.

(** X16. For a [v1] of at most [INT_MAX] elements, [equal_vectors]
    returns false exactly when there is an index, inside both vectors, at
    which they differ and before which they agree: it stops at the first
    difference, which is the one its message shows. *)
Theorem equal_vectors_false v1 v2 :
  vsize v1 <= INT_MAX ->
  equal_vectors v1 v2 = Some false <->
  exists i x y, v1 !! i = Some x /\ v2 !! i = Some y /\ x <> y /\
                take i v1 = take i v2.
Proof.
  revert v2. induction v1 as [|x v1 IH]; intros v2 Hmax.
  - split; [done|]. by intros (i & a & b & Ha & _).
  - destruct v2 as [|y v2].
    + split; [done|]. by intros (i & a & b & _ & Hb & _).
    + rewrite equal_vectors_cons by done.
      rewrite vsize_cons in Hmax.
      destruct (decide (x <> y)) as [Hne|Heq%dec_stable].
      * split; [|done]. intros _. by exists 0%nat, x, y.
      * subst y. rewrite IH by lia. split.
        -- intros (i & a & b & Ha & Hb & Hab & Ht).
           exists (S i), a, b. simpl. by rewrite Ht.
        -- intros ([|i] & a & b & Ha & Hb & Hab & Ht); simpl in *.
           { congruence. }
           exists i, a, b. split_and!; [done..|]. by injection Ht.
Qed.

Lemma equal_vectors_false_witness :
  vsize [4; 8; 15] <= INT_MAX /\
  (equal_vectors [4; 8; 15] [4; 9; 15; 16] = Some false <->
   exists i x y, [4; 8; 15] !! i = Some x /\ [4; 9; 15; 16] !! i = Some y /\
                 x <> y /\ take i [4; 8; 15] = take i [4; 9; 15; 16]).
Proof.
  assert (H : vsize [4; 8; 15] <= INT_MAX) by (vm_compute; discriminate).
  split; [exact H|].
  exact (equal_vectors_false [4; 8; 15] [4; 9; 15; 16] H).
Defined.

(** X17. For a [v1] of at most [INT_MAX] elements, [equal_vectors] has
    undefined behaviour exactly when [v2] is shorter than [v1] and equal to
    the beginning of [v1], in which case it reads [v2] out of bounds; a
    difference inside [v2] is found before the end of [v2] is passed. *)
Theorem equal_vectors_out_of_bounds v1 v2 :
  vsize v1 <= INT_MAX ->
  equal_vectors v1 v2 = None <->
  (length v2 < length v1)%nat /\ take (length v2) v1 = v2.
Proof.
  revert v2. induction v1 as [|x v1 IH]; intros v2 Hmax.
  - split; [done|]. simpl. lia.
  - destruct v2 as [|y v2].
    + split; [|done]. intros _. simpl. split; [lia|done].
    + rewrite equal_vectors_cons by done.
      rewrite vsize_cons in Hmax. simpl.
      destruct (decide (x <> y)) as [Hne|Heq%dec_stable].
      * split; [done|]. intros [_ [= Hxy _]]. done.
      * subst y. rewrite IH by lia. split.
        -- intros [Hlt Ht]. split; [lia|by rewrite Ht].
        -- intros [Hlt Ht]. split; [lia|by injection Ht].
Qed.

Lemma equal_vectors_out_of_bounds_witness :
  vsize [4; 8; 15] <= INT_MAX /\
  (equal_vectors [4; 8; 15] [4; 8] = None <->
   (length [4; 8] < length [4; 8; 15])%nat /\
   take (length [4; 8]) [4; 8; 15] = [4; 8]).
Proof.
  assert (H : vsize [4; 8; 15] <= INT_MAX) by (vm_compute; discriminate).
  split; [exact H|].
  exact (equal_vectors_out_of_bounds [4; 8; 15] [4; 8] H).
Defined.

(** ** The benchmark *)

Lemma generate_uint T rs :
  Forall (is_uint T) (generate T rs) /\ length (generate T rs) = length rs.
Proof.
  unfold generate. split; [|apply length_fmap].
  apply Forall_fmap, Forall_forall. intros r _. unfold is_uint, to_T. simpl.
  apply Z.mod_pos_bound. pose proof (bits_pos T).
  apply Z.pow_pos_nonneg; lia.
Qed.

(** X18. A repetition of the benchmark on more than [bits T] values (and
    at most [INT_MAX]) reports no error: the three sorts return the same
    vector and both calls of [equal_vectors] return true. *)
Theorem benchmark_rep_no_error T rs :
  bits T < vsize rs <= INT_MAX ->
  benchmark_rep T rs = Some (true, true).
Proof.
  intros Hn. destruct (generate_uint T rs) as [Hv Hlen].
  unfold benchmark_rep.
  rewrite bin_radix_sort_rec_reference by (unfold vsize in *; (done || lia)).
  simpl.
  rewrite bin_radix_sort_it_reference by (unfold vsize in *; (done || lia)).
  simpl.
  rewrite equal_vectors_refl
    by (rewrite reference_sort_vsize; unfold vsize in *; lia).
  done.
Qed.

Lemma benchmark_rep_no_error_witness :
  bits uint8_t < vsize [1804289383; 846930886; 1681692777; 1714636915;
                        1957747793; 424238335; 719885386; 1649760492;
                        596516649; 1189641421] <= INT_MAX /\
  benchmark_rep uint8_t [1804289383; 846930886; 1681692777; 1714636915;
                         1957747793; 424238335; 719885386; 1649760492;
                         596516649; 1189641421] = Some (true, true).
Proof.
  assert (H : bits uint8_t < vsize [1804289383; 846930886; 1681692777;
                1714636915; 1957747793; 424238335; 719885386; 1649760492;
                596516649; 1189641421] <= INT_MAX)
    by (split; vm_compute; [reflexivity|discriminate]).
  split; [exact H|].
  exact (benchmark_rep_no_error uint8_t _ H).
Defined.

(** X19. A repetition of the benchmark never reports an error, whatever
    the values and their number (at most [INT_MAX]): either both calls of
    [equal_vectors] return true, or the iterative variant has written
    outside its stack and the repetition has no defined result, as on no
    values at all. *)
Theorem benchmark_rep_never_false T rs :
  vsize rs <= INT_MAX ->
  (benchmark_rep T rs = Some (true, true) \/ benchmark_rep T rs = None) /\
  benchmark_rep T [] = None.
Proof.
  intros Hmax. split; [|done].
  destruct (generate_uint T rs) as [Hv Hlen].
  assert (Hmax' : vsize (generate T rs) <= INT_MAX)
    by (unfold vsize in *; lia).
  unfold benchmark_rep.
  rewrite bin_radix_sort_rec_reference by done. simpl.
  destruct (bin_radix_sort_it T (generate T rs)) as [v3| |s] eqn:Hit;
    simpl; [|by right..].
  left. assert (Hrec : bin_radix_sort_rec T (generate T rs) = Some v3).
  { unfold bin_radix_sort_it in Hit.
    destruct (it_init T (generate T rs)) as [s|] eqn:Hs; [|done].
    apply (it_loop_returned T _ (it_bound T (generate T rs)) s);
      [done| |done].
    by apply it_init_inv. }
  rewrite bin_radix_sort_rec_reference in Hrec by done.
  injection Hrec as <-.
  rewrite equal_vectors_refl by (by rewrite reference_sort_vsize).
  done.
Qed.

Lemma benchmark_rep_never_false_witness :
  vsize [41; 18467; 6334] <= INT_MAX /\
  (benchmark_rep uint16_t [41; 18467; 6334] = Some (true, true) \/
   benchmark_rep uint16_t [41; 18467; 6334] = None) /\
  benchmark_rep uint16_t [] = None.
Proof.
  assert (H : vsize [41; 18467; 6334] <= INT_MAX) by (vm_compute; discriminate).
  split; [exact H|].
  exact (benchmark_rep_never_false uint16_t [41; 18467; 6334] H).
Defined.
